(** * wgs_analysis.snvs.mutsig : mutational-signature exposures

    A shallow embedding of [wgs_analysis/snvs/mutsig.py].  Python strings are
    [string]s, pandas tables are lists of rows or labelled matrices, Python
    floats are IEEE doubles ([PrimFloat.float]) and raised exceptions are the
    left summand of [result].  The two numerical engines the module calls into
    ([lda.LDA.transform] and [scipy.stats.mannwhitneyu]) are not part of the
    package; they are parameters of the definitions that call them. *)

From Stdlib Require Import List Bool Arith ZArith Lia Permutation.
From Stdlib Require Import Ascii String DecimalString DecimalPos Sorted.
From Stdlib Require Import PrimFloat.
Import ListNotations.

Set Warnings "-inexact-float".

Local Open Scope string_scope.
Local Open Scope list_scope.

(** ** Python built-ins *)

Module Py.

(** Exceptions the module can raise.  [LibraryError] stands for any fault
    raised inside one of the external numerical routines. *)
Inductive exn : Type :=
| KeyError (key : string)
| IndexError (msg : string)
| ValueError (msg : string)
| LibraryError (msg : string).

Definition result (A : Type) : Type := (exn + A)%type.

Definition ret {A} (a : A) : result A := inr a.
Definition raise {A} (e : exn) : result A := inl e.
Definition bind {A B} (m : result A) (k : A -> result B) : result B :=
  match m with
  | inl e => inl e
  | inr a => k a
  end.

(** [for x in xs: ys.append(f(x))], stopping at the first exception. *)
Fixpoint mapM {A B} (f : A -> result B) (xs : list A) : result (list B) :=
  match xs with
  | [] => ret []
  | x :: xs' => bind (f x) (fun y => bind (mapM f xs') (fun ys => ret (y :: ys)))
  end.

Definition chars (s : string) : list ascii := list_ascii_of_string s.
Definition str (cs : list ascii) : string := string_of_list_ascii cs.

(** [s[::-1]] *)
Definition reversed (s : string) : string := str (rev (chars s)).

(** A [dict] with character keys, as an insertion-ordered association list;
    assigning to a key that is present overwrites its value in place. *)
Fixpoint dict_set (d : list (ascii * ascii)) (k v : ascii) : list (ascii * ascii) :=
  match d with
  | [] => [(k, v)]
  | (k', v') :: d' =>
      if Ascii.eqb k' k then (k', v) :: d' else (k', v') :: dict_set d' k v
  end.

Fixpoint dict_get (d : list (ascii * ascii)) (k : ascii) : option ascii :=
  match d with
  | [] => None
  | (k', v') :: d' => if Ascii.eqb k' k then Some v' else dict_get d' k
  end.

(** [str.maketrans(x, y)] for two strings of equal length. *)
Definition maketrans (x y : string) : list (ascii * ascii) :=
  fold_left (fun d kv => dict_set d (fst kv) (snd kv))
            (combine (chars x) (chars y)) [].

Definition translate_char (table : list (ascii * ascii)) (c : ascii) : ascii :=
  match dict_get table c with
  | Some c' => c'
  | None => c
  end.

(** [s.translate(table)]: characters without an entry are kept. *)
Definition translate (table : list (ascii * ascii)) (s : string) : string :=
  str (map (translate_char table) (chars s)).

(** [s.endswith(suffix)] *)
Definition endswith (s suffix : string) : bool :=
  let n := String.length s in
  let m := String.length suffix in
  (m <=? n)%nat && String.eqb (substring (n - m) m s) suffix.

(** [s.startswith(prefix)] *)
Definition startswith (s pre : string) : bool := prefix pre s.

(** [s.split(sep)] for a one-character separator: the pieces between the
    occurrences of [sep], of which there is always at least one. *)
Fixpoint split_chars (sep : ascii) (cs : list ascii) : list ascii * list (list ascii) :=
  match cs with
  | [] => ([], [])
  | c :: cs' =>
      let (piece, pieces) := split_chars sep cs' in
      if Ascii.eqb c sep then ([], piece :: pieces) else (c :: piece, pieces)
  end.

Definition split (s : string) (sep : ascii) : list string :=
  let (piece, pieces) := split_chars sep (chars s) in
  map str (piece :: pieces).

(** [xs[i]] on a list. *)
Definition getitem {A} (xs : list A) (i : nat) : result A :=
  match nth_error xs i with
  | Some x => ret x
  | None => raise (IndexError "list index out of range")
  end.

End Py.

Import Py.

(** ** reverse_complement *)

Definition reverse_complement (sequence : string) : string :=
  translate (maketrans "ACTGactg" "TGACtgac") (reversed sequence).

(** The substitution in the words of the specification: A<->T and C<->G,
    keeping the case, every other character left alone. *)
Definition complement_base (c : ascii) : ascii :=
  match c with
  | "A" => "T" | "T" => "A" | "C" => "G" | "G" => "C"
  | "a" => "t" | "t" => "a" | "c" => "g" | "g" => "c"
  | _ => c
  end%char.

Definition is_base (c : ascii) : bool :=
  existsb (Ascii.eqb c) (chars "ACGTacgt").

Definition is_upper (c : ascii) : bool :=
  let n := nat_of_ascii c in (65 <=? n)%nat && (n <=? 90)%nat.

Definition over_bases (s : string) : Prop :=
  forallb is_base (chars s) = true.

(** ** pandas tables *)

Module Pd.

(** A table with labelled rows and columns; [values] is row-major, the way
    [DataFrame.values] hands it out.  The names of the two axes
    ([index.name], [columns.name]), which only the drawing code reads, are
    not kept. *)
Record DataFrame (I C V : Type) : Type := mkDataFrame {
  index : list I;
  columns : list C;
  values : list (list V)
}.
Arguments mkDataFrame {I C V}.
Arguments index {I C V}.
Arguments columns {I C V}.
Arguments values {I C V}.

(** A labelled vector, in index order. *)
Definition Series (I V : Type) : Type := list (I * V).

(** [pd.DataFrame()] *)
Definition empty_frame {I C V} : DataFrame I C V :=
  mkDataFrame [] [] [].

(** [pd.DataFrame(data, index=..., columns=...)] checks the shape of [data]
    against the two label lists. *)
Definition frame_of_array {I C V} (data : list (list V)) (idx : list I)
           (cols : list C) : result (DataFrame I C V) :=
  if (List.length data =? List.length idx)%nat
     && forallb (fun row => (List.length row =? List.length cols)%nat) data
  then ret (mkDataFrame idx cols data)
  else raise (ValueError "Shape of passed values does not match the indices").

Section Keys.
Context {K : Type} (leb eqb : K -> K -> bool).

(** Group keys come out sorted and without repetition. *)
Fixpoint insert_key (k : K) (ks : list K) : list K :=
  match ks with
  | [] => [k]
  | k' :: ks' =>
      if eqb k k' then ks
      else if leb k k' then k :: ks
      else k' :: insert_key k ks'
  end.

Definition unique_sorted (ks : list K) : list K :=
  fold_left (fun acc k => insert_key k acc) ks [].

(** [rows.groupby(key)]: one group per key value, the keys sorted, the rows
    of a group in their original order. *)
Definition groupby {R : Type} (key : R -> K) (rows : list R)
  : list (K * list R) :=
  map (fun k => (k, filter (fun r => eqb (key r) k) rows))
      (unique_sorted (map key rows)).

(** [.size()] of a group-by. *)
Definition size {R : Type} (groups : list (K * list R)) : Series K nat :=
  map (fun g => (fst g, List.length (snd g))) groups.

(** Label lookup in a series or a [dict] built from (key, value) pairs. *)
Fixpoint lookup {V : Type} (k : K) (s : list (K * V)) : option V :=
  match s with
  | [] => None
  | (k', v) :: s' => if eqb k' k then Some v else lookup k s'
  end.

(** [table.set_index(col).loc[labels].reset_index()] on a table whose index
    may repeat: for every label in turn, all rows carrying it. *)
Definition loc_rows {R : Type} (col : R -> K) (rows : list R)
           (labels : list K) : list R :=
  flat_map (fun k => filter (fun r => eqb (col r) k) rows) labels.
End Keys.

(** Order and equality of the two-level keys of a group-by on two columns. *)
Definition pair_eqb {A B} (eqa : A -> A -> bool) (eqb : B -> B -> bool)
           (x y : A * B) : bool :=
  eqa (fst x) (fst y) && eqb (snd x) (snd y).

Definition pair_leb {A B} (lea eqa : A -> A -> bool) (leb : B -> B -> bool)
           (x y : A * B) : bool :=
  if eqa (fst x) (fst y) then leb (snd x) (snd y) else lea (fst x) (fst y).

(** [sizes.unstack()]: the first key level labels the rows, the second the
    columns; a combination that has no entry is missing ([None], pandas'
    NaN). *)
Definition unstack {A B V} (lea eqa : A -> A -> bool) (leb eqb : B -> B -> bool)
           (s : Series (A * B) V) : DataFrame A B (option V) :=
  let rows := unique_sorted lea eqa (map (fun e => fst (fst e)) s) in
  let cols := unique_sorted leb eqb (map (fun e => snd (fst e)) s) in
  mkDataFrame rows cols
    (map (fun a => map (fun b => lookup (pair_eqb eqa eqb) (a, b) s) cols) rows).

(** [.fillna(v)] *)
Definition fillna {I C V} (v : V) (df : DataFrame I C (option V))
  : DataFrame I C V :=
  mkDataFrame (index df) (columns df)
    (map (map (fun c => match c with Some x => x | None => v end)) (values df)).

(** [.astype(int)] on a table of counts. *)
Definition astype_int {I C} (df : DataFrame I C nat) : DataFrame I C Z :=
  mkDataFrame (index df) (columns df) (map (map Z.of_nat) (values df)).

(** [array.T] of a rectangular array with [n] columns. *)
Definition transpose {V} (d : V) (n : nat) (a : list (list V)) : list (list V) :=
  map (fun j => map (fun row => nth j row d) a) (seq 0 n).

(** The [j]-th column of a table as a series over the row labels. *)
Definition column {I C V} (d : V) (df : DataFrame I C V) (j : nat) : Series I V :=
  combine (index df) (map (fun row => nth j row d) (values df)).

End Pd.

Import Pd.

(** ** fit_sample_signatures *)

(** The state of an [lda.LDA] object that this module sets. *)
Record LDA : Type := mkLDA {
  n_topics : nat;
  random_state : Z;
  n_iter : Z;
  alpha : float;
  components_ : list (list float)
}.

(** The signature of [lda.LDA.transform(X, max_iter)]. *)
Definition lda_transform : Type :=
  LDA -> list (list Z) -> Z -> result (list (list float)).

(** What the module relies on from [transform]: one row of [n_topics]
    proportions per row of the count matrix. *)
Definition transform_shape (transform : lda_transform) : Prop :=
  forall model X max_iter,
  exists Y, transform model X max_iter = inr Y /\
            List.length Y = List.length X /\
            Forall (fun row => List.length row = n_topics model) Y.

Section Fit.
(** A variant table is a list of rows of some type [Row]; a column is read
    through its accessor, so [subset_col] is the accessor of the grouping
    column and [tri_nuc_idx_col] that of the column [tri_nuc_idx].  Every row
    has a grouping key and an integer context index: the tables the module
    passes in have been through the inner join that attaches the index. *)
Context {Row : Type} (tri_nuc_idx_col : Row -> Z).
Variable transform : lda_transform.

(** [snvs_table.groupby(subset_col).size()] *)
Definition snv_counts (snvs_table : list Row) (subset_col : Row -> string)
  : Series string nat :=
  size (groupby String.leb String.eqb subset_col snvs_table).

(** Lines 18-19: the rows of the groups with more than 100 variants. *)
Definition filter_samples (snvs_table : list Row) (subset_col : Row -> string)
  : list Row :=
  let counts := snv_counts snvs_table subset_col in
  let kept := map fst (filter (fun kv => (100 <? snd kv)%nat) counts) in
  loc_rows String.eqb subset_col snvs_table kept.

(** Lines 21-22: the group by context-index count matrix. *)
Definition tri_nuc_table (snvs_table : list Row) (subset_col : Row -> string)
  : DataFrame string Z Z :=
  let rows := filter_samples snvs_table subset_col in
  let sizes :=
    size (groupby (pair_leb String.leb String.eqb Z.leb)
                  (pair_eqb String.eqb Z.eqb)
                  (fun r => (subset_col r, tri_nuc_idx_col r)) rows) in
  astype_int (fillna 0%nat (unstack String.leb String.eqb Z.leb Z.eqb sizes)).

(** [a[len('Signature '):]] *)
Definition strip_signature (a : string) : string :=
  substring (String.length "Signature ")
            (String.length a - String.length "Signature ") a.

Definition fit_sample_signatures (snvs_table : list Row)
           (sig_prob : DataFrame Z string float) (subset_col : Row -> string)
  : result (DataFrame string string float) :=
  let counts := tri_nuc_table snvs_table subset_col in
  if (List.length (index counts) =? 0)%nat then ret empty_frame
  else
    let model :=
      mkLDA (List.length (columns sig_prob)) 0%Z 10000%Z 0.01%float
            (transpose 0%float (List.length (columns sig_prob)) (values sig_prob)) in
    bind (transform model (values counts) 1000%Z) (fun sample_sig =>
    bind (frame_of_array sample_sig (index counts) (columns sig_prob))
         (fun sample_sig =>
    ret (mkDataFrame (index sample_sig)
                     (map strip_signature (columns sample_sig))
                     (values sample_sig)))).
End Fit.

(** The total variant count of a group, in the words of the specification. *)
Definition group_count {Row : Type} (subset_col : Row -> string)
           (snvs_table : list Row) (k : string) : nat :=
  count_occ string_dec (map subset_col snvs_table) k.

(** ** test_ancestral_descendant *)

(** The signature of [scipy.stats.mannwhitneyu(x, y)] called with two samples
    and nothing else: the statistic and the p-value, or a fault of the
    routine. *)
Definition mannwhitneyu_t : Type :=
  list float -> list float -> result (float * float).

(** [a <= b] on Booleans: [False] sorts before [True]. *)
Definition bool_leb (a b : bool) : bool := implb a b.

(** [repr] of a Boolean dictionary key, for the [KeyError]. *)
Definition repr_bool (b : bool) : string := if b then "True" else "False".

(** [d[k]] on the dictionary [dict(list(groups))] with Boolean keys. *)
Definition dict_getitem {V} (d : list (bool * V)) (k : bool) : result V :=
  match lookup Bool.eqb k d with
  | Some v => ret v
  | None => raise (KeyError (repr_bool k))
  end.

Definition is_node0 (a : string) : bool := endswith a "Node0".

Section RankTest.
Variable mannwhitneyu : mannwhitneyu_t.

Definition test_ancestral_descendant (data : Series string float)
  : result float :=
  let data :=
    groupby bool_leb Bool.eqb (fun e : string * float => is_node0 (fst e)) data in
  bind (dict_getitem data true) (fun x =>
  bind (dict_getitem data false) (fun y =>
  bind (mannwhitneyu (map snd x) (map snd y)) (fun r =>
  ret (snd r)))).

(** ** plot_signature_boxplots *)

(** [sample_sig.apply(f)] with a function from a column to a number: a
    series over the column labels.  When the table has no rows or no
    columns pandas does not go through the columns; [f] is tried once on an
    empty series and, as [test_ancestral_descendant] raises there, a copy of
    the table comes back in place of a series. *)
Definition apply_columns (f : Series string float -> result float)
           (sample_sig : DataFrame string string float)
  : result (Series string float + DataFrame string string float) :=
  if (List.length (index sample_sig) =? 0)%nat
     || (List.length (columns sample_sig) =? 0)%nat
  then ret (inr sample_sig)
  else
    bind (mapM (fun j => bind (f (column 0%float sample_sig j))
                              (fun p => ret (nth j (columns sample_sig) "", p)))
               (seq 0 (List.length (columns sample_sig))))
         (fun s => ret (inl s)).

(** [sample_sig.loc[:, labels]]: for every label in turn, the positions of
    all columns that carry it; a label that no column carries is a
    [KeyError]. *)
Definition loc_columns (sample_sig : DataFrame string string float)
           (labels : list string) : result (DataFrame string string float) :=
  if forallb (fun l => existsb (String.eqb l) (columns sample_sig)) labels then
    let picked :=
      flat_map (fun l => filter (fun j => String.eqb (nth j (columns sample_sig) "") l)
                                (seq 0 (List.length (columns sample_sig))))
               labels in
    ret (mkDataFrame (index sample_sig)
                     (map (fun j => nth j (columns sample_sig) "") picked)
                     (map (fun row => map (fun j => nth j row 0%float) picked)
                          (values sample_sig)))
  else raise (KeyError "labels not in the columns").

(** The default of the keyword argument [pvalue_threshold]. *)
Definition pvalue_threshold_default : float := 0.01%float.

Definition threshold_of (pvalue_threshold : option float) : float :=
  match pvalue_threshold with
  | Some t => t
  | None => pvalue_threshold_default
  end.

(** Lines 56-57 of [plot_signature_boxplots]: the table [data] that is then
    reshaped and drawn, one panel per column.  [pvalue_threshold] is [None]
    when the caller leaves the keyword out.  [test_pvalue[mask].index] is the
    labels of the p-values below the threshold; when [apply] gave the table
    back it is the row labels of that table. *)
Definition plot_signature_boxplots (sample_sig : DataFrame string string float)
           (pvalue_threshold : option float)
  : result (DataFrame string string float) :=
  bind (apply_columns test_ancestral_descendant sample_sig) (fun test_pvalue =>
  let kept :=
    match test_pvalue with
    | inl s =>
        map fst (filter (fun lp => ltb (snd lp) (threshold_of pvalue_threshold)) s)
    | inr table => index table
    end in
  loc_columns sample_sig kept).
End RankTest.

(** ** load_signature_probabilities *)

(** The parsed reference file: the two text columns the module reads, and
    the other columns by name.  Only the columns whose name starts with
    [Signature] are used, so the other columns are taken as numeric too. *)
Record signature_file : Type := mkSignatureFile {
  Substitution_Type : list string;
  Trinucleotide : list string;
  other_columns : list (string * list float)
}.

(** A row of the context lookup. *)
Record sig_entry : Type := mkSigEntry {
  tri_nuc_idx : Z;
  ref : string;
  alt : string;
  tri_nucleotide_context : string
}.

Definition triple (e : sig_entry) : string * string * string :=
  (ref e, alt e, tri_nucleotide_context e).

(** The [for col in ['ref', 'alt', 'tri_nucleotide_context']] loop on one row
    of [sig2]. *)
Definition reverse_complement_entry (e : sig_entry) : sig_entry :=
  mkSigEntry (tri_nuc_idx e) (reverse_complement (ref e))
             (reverse_complement (alt e))
             (reverse_complement (tri_nucleotide_context e)).

Definition load_signature_probabilities (file : signature_file)
  : result (list sig_entry * DataFrame Z string float) :=
  let n := List.length (Trinucleotide file) in
  let idx := map Z.of_nat (seq 0 n) in
  bind (mapM (fun a => getitem (split a ">") 0) (Substitution_Type file)) (fun refs =>
  bind (mapM (fun a => getitem (split a ">") 1) (Substitution_Type file)) (fun alts =>
  let sig1 :=
    map (fun r => mkSigEntry (fst (fst (fst r))) (snd (fst (fst r)))
                             (snd (fst r)) (snd r))
        (combine (combine (combine idx refs) alts) (Trinucleotide file)) in
  let sig2 := map reverse_complement_entry sig1 in
  let sigs := sig1 ++ sig2 in
  let signature_cols :=
    filter (fun c => startswith (fst c) "Signature") (other_columns file) in
  let sig_prob :=
    mkDataFrame idx (map fst signature_cols)
      (map (fun i => map (fun c => nth i (snd c) 0%float) signature_cols) (seq 0 n)) in
  ret (sigs, sig_prob))).

(** The conditions on the rows of the reference table under which the lookup
    is a function of the triple: no (ref, alt, context) triple listed twice,
    and every reference base a pyrimidine, so that the reverse complements,
    whose reference base is a purine, are new triples. *)
Definition triple_eqb (x y : string * string * string) : bool :=
  String.eqb (fst (fst x)) (fst (fst y)) && String.eqb (snd (fst x)) (snd (fst y))
  && String.eqb (snd x) (snd y).

Fixpoint distinctb {A : Type} (eqb : A -> A -> bool) (l : list A) : bool :=
  match l with
  | [] => true
  | x :: l' => negb (existsb (eqb x) l') && distinctb eqb l'
  end.

Definition distinct_triples (es : list sig_entry) : bool :=
  distinctb triple_eqb (map triple es).

Definition pyrimidine_refs (es : list sig_entry) : bool :=
  forallb (fun e => String.eqb (ref e) "C" || String.eqb (ref e) "T") es.

(** Every substitution type has a [>], so that both pieces exist. *)
Definition substitutions_split (file : signature_file) : bool :=
  forallb (fun a => (2 <=? List.length (split a ">"))%nat) (Substitution_Type file).

(** Modelled from the spec: the packaged table
    [data/signatures_probabilities.tsv] is not among the sources.  Its 96 rows,
    one per trinucleotide context, are laid out here as six substitution types
    of a pyrimidine reference base with the sixteen pairs of flanking bases
    each; the signature columns are left to the caller. *)
Definition cosmic_substitutions : list (string * string) :=
  [("C", "A"); ("C", "G"); ("C", "T"); ("T", "A"); ("T", "C"); ("T", "G")].

Definition bases : list string := ["A"; "C"; "G"; "T"].

Definition cosmic_file (signatures : list (string * list float)) : signature_file :=
  let rows :=
    flat_map (fun sub =>
      flat_map (fun five =>
        map (fun three =>
               ((fst sub ++ ">" ++ snd sub)%string,
                (five ++ fst sub ++ three)%string))
            bases)
        bases)
      cosmic_substitutions in
  mkSignatureFile (map fst rows) (map snd rows) signatures.

(** ** plot_signature_heatmap *)

(** What the drawing library is asked for; the drawing itself is seaborn's
    and matplotlib's.  [blank_figure] is [plt.figure(figsize=...)] and
    [clustermap] the figure of [seaborn.clustermap(data, figsize=...)] with
    its row labels turned. *)
Inductive heatmap : Type :=
| blank_figure (figsize : nat * nat)
| clustermap (data : DataFrame string string float) (figsize : nat * nat).

Definition plot_signature_heatmap (sample_sig : DataFrame string string float)
  : heatmap :=
  if (List.length (index sample_sig) <=? 1)%nat then blank_figure (8, 5)%nat
  else clustermap sample_sig (8, 5)%nat.

(** ** plot_cohort_mutation_signatures: the tables it prepares *)

(** A row of the caller's SNV table, with the columns the module reads.  A
    missing trinucleotide context is [None]. *)
Record snv_row : Type := mkSnv {
  snv_chrom : string;
  snv_coord : Z;
  snv_ref : string;
  snv_alt : string;
  snv_context : option string;
  snv_alt_counts : Z;
  snv_patient_id : string;
  snv_sample_id : string
}.

(** A row of the caller's table of variants per node. *)
Record snv_node_row : Type := mkSnvNode {
  node_patient_id : string;
  node : Z;
  node_chrom : string;
  node_coord : Z;
  node_ref : string;
  node_alt : string
}.

(** The join condition of [snvs_table.merge(sigs)]: the columns the two
    tables share are [ref], [alt] and [tri_nucleotide_context]. *)
Definition matches_entry (r : snv_row) (e : sig_entry) : bool :=
  String.eqb (snv_ref r) (ref e) && String.eqb (snv_alt r) (alt e)
  && match snv_context r with
     | Some c => String.eqb c (tri_nucleotide_context e)
     | None => false
     end.

(** [snvs_table.merge(sigs)], an inner join: every row of the left table
    once for each row of the lookup it agrees with, with that row's context
    index attached. *)
Definition merge_sigs (snvs_table : list snv_row) (sigs : list sig_entry)
  : list (snv_row * Z) :=
  flat_map (fun r => map (fun e => (r, tri_nuc_idx e))
                         (filter (matches_entry r) sigs))
           snvs_table.

Definition notnull {A} (x : option A) : bool :=
  match x with Some _ => true | None => false end.

(** Lines 142-146: the SNV table with a context index on every row. *)
Definition cohort_snvs (snvs_table : list snv_row) (sigs : list sig_entry)
  : list (snv_row * Z) :=
  let snvs_table := filter (fun r => notnull (snv_context r)) snvs_table in
  let snvs_table := merge_sigs snvs_table sigs in
  filter (fun x => (0 <? snv_alt_counts (fst x))%Z) snvs_table.

(** Line 148: [patient_id + '_' + sample_id]. *)
Definition patient_sample_id (x : snv_row * Z) : string :=
  (snv_patient_id (fst x) ++ "_" ++ snv_sample_id (fst x))%string.

(** [table.drop_duplicates()]: a row stays when no equal row came before it. *)
Fixpoint drop_duplicates_from {A : Type} (eqb : A -> A -> bool)
         (seen rows : list A) : list A :=
  match rows with
  | [] => []
  | r :: rows' =>
      if existsb (eqb r) seen then drop_duplicates_from eqb seen rows'
      else r :: drop_duplicates_from eqb (r :: seen) rows'
  end.

Definition drop_duplicates {A : Type} (eqb : A -> A -> bool) (rows : list A)
  : list A :=
  drop_duplicates_from eqb [] rows.

(** A variant site with its context index: the columns [chrom], [coord],
    [ref], [alt] and [tri_nuc_idx]. *)
Definition site : Type := (string * Z * string * string * Z)%type.

Definition site_eqb (a b : site) : bool :=
  match a, b with
  | (c1, p1, r1, a1, i1), (c2, p2, r2, a2, i2) =>
      String.eqb c1 c2 && Z.eqb p1 p2 && String.eqb r1 r2 && String.eqb a1 a2
      && Z.eqb i1 i2
  end.

(** Line 159. *)
Definition cohort_tri_nuc (snvs_table : list (snv_row * Z)) : list site :=
  drop_duplicates site_eqb
    (map (fun x => (snv_chrom (fst x), snv_coord (fst x), snv_ref (fst x),
                    snv_alt (fst x), snd x))
         snvs_table).

Definition matches_site (r : snv_node_row) (s : site) : bool :=
  match s with
  | (c, p, rf, al, _) =>
      String.eqb (node_chrom r) c && Z.eqb (node_coord r) p
      && String.eqb (node_ref r) rf && String.eqb (node_alt r) al
  end.

(** Line 160: [snv_nodes_table.merge(cohort_tri_nuc)], an inner join on
    [chrom], [coord], [ref] and [alt]. *)
Definition merge_sites (snv_nodes_table : list snv_node_row)
           (sites : list site) : list (snv_node_row * Z) :=
  flat_map (fun r => map (fun s => (r, snd s)) (filter (matches_site r) sites))
           snv_nodes_table.

(** [str(n)] of an integer. *)
Definition str_int (n : Z) : string :=
  DecimalString.NilZero.string_of_int (Z.to_int n).

(** Line 162: [patient_id + '_Node' + node.astype(str)]. *)
Definition patient_node_id (x : snv_node_row * Z) : string :=
  (node_patient_id (fst x) ++ "_Node" ++ str_int (node (fst x)))%string.

(** The sum of a row of counts. *)
Definition row_total (row : list Z) : Z := fold_right Z.add 0%Z row.

(** ** The contracts of the two numerical routines *)

(** The sum of a row of weights, added up from the left in double
    precision. *)
Definition row_sum (row : list float) : float := fold_left add row 0%float.

(** A row of weights is a point of the probability simplex within the
    tolerance [tol]: no weight is negative (or not a number) and the sum is
    within [tol] of 1. *)
Definition simplex (tol : float) (row : list float) : bool :=
  forallb (fun w => leb 0%float w) row
  && leb (abs (sub (row_sum row) 1%float)) tol.

(** Modelled from the spec: the inference engine [lda.LDA.transform] is not
    among the sources.  Sections 4.3 and 9 of the specification give the
    contract an engine has to keep: for a model with at least one topic and a
    count matrix without an empty row, one row per row of the matrix, of
    [n_topics] non-negative weights that sum to 1. *)
Definition transform_simplex (tol : float) (transform : lda_transform) : Prop :=
  forall model X max_iter,
    (0 < n_topics model)%nat ->
    Forall (fun doc => (0 < row_total doc)%Z) X ->
    exists Y, transform model X max_iter = inr Y /\
              List.length Y = List.length X /\
              Forall (fun row => List.length row = n_topics model /\
                                 simplex tol row = true) Y.



(** ** Sample inputs *)

(** A stand-in for the inference engine with the shape the module relies on:
    every group gets the same weight on every topic. *)
Definition uniform_transform : lda_transform :=
  fun model X _ => ret (map (fun _ => repeat 0.5%float (n_topics model)) X).

(** A two-signature basis over two contexts. *)
Definition basis2 : DataFrame Z string float :=
  mkDataFrame [0%Z; 1%Z] ["Signature 1"; "Signature 2"]
              [[1%float; 0%float]; [0%float; 1%float]].

(** Variant rows as (grouping key, context index) pairs: 101 variants of
    one sample, all in context 1, and 100 of another in context 0. *)
Definition one_context_table : list (string * Z) :=
  repeat ("P1_S1", 1%Z) 101 ++ repeat ("P1_S2", 0%Z) 100.

(** A stand-in for the rank test: a small p-value when the first sample
    starts below the second, a large one otherwise. *)
Definition toy_mannwhitneyu : mannwhitneyu_t :=
  fun x y =>
    if ltb (hd 0%float x) (hd 0%float y)
    then ret (0%float, 0.001%float)
    else ret (1%float, 0.5%float).

(** Exposures of three nodes on two signatures. *)
Definition node_sig3 : DataFrame string string float :=
  mkDataFrame ["P1_Node0"; "P1_Node1"; "P2_Node0"] ["1"; "2"]
              [[0.5%float; 0.5%float]; [0.25%float; 0.75%float];
               [0.125%float; 0.875%float]].

(** Variants of three samples: two above the cutoff, listed out of order,
    and one below it. *)
Definition three_sample_table : list (string * Z) :=
  repeat ("P2_S1", 1%Z) 60 ++ repeat ("P1_S1", 0%Z) 101
  ++ repeat ("P2_S1", 0%Z) 50 ++ repeat ("P3_S1", 1%Z) 100.

(** An inference engine that always fails. *)
Definition failing_transform : lda_transform :=
  fun _ _ _ => raise (LibraryError "no convergence").

(** Exposures of nodes none of which is a root. *)
Definition descendants_only : DataFrame string string float :=
  mkDataFrame ["P1_Node1"; "P1_Node2"] ["1"]
              [[0.5%float]; [0.25%float]].

(** The same variant read off the opposite strand. *)
Definition reverse_complement_snv (r : snv_row) : snv_row :=
  mkSnv (snv_chrom r) (snv_coord r)
        (reverse_complement (snv_ref r)) (reverse_complement (snv_alt r))
        (option_map reverse_complement (snv_context r))
        (snv_alt_counts r) (snv_patient_id r) (snv_sample_id r).

(** A two-row reference table. *)
Definition two_row_file : signature_file :=
  mkSignatureFile ["C>A"; "T>G"] ["ACA"; "CTG"]
                  [("Signature 1", [0.25%float; 0.75%float])].

(** Two samples carrying the same variant, one of them also a second one
    that is written on the opposite strand. *)
Definition cohort_table : list snv_row :=
  [mkSnv "1" 100 "C" "A" (Some "ACA") 7 "P1" "S1";
   mkSnv "1" 100 "C" "A" (Some "ACA") 3 "P1" "S2";
   mkSnv "2" 250 "A" "C" (Some "CAG") 5 "P1" "S1";
   mkSnv "3" 900 "C" "A" None 4 "P1" "S1";
   mkSnv "4" 40 "T" "G" (Some "CTG") 0 "P1" "S2"].

Definition node_table : list snv_node_row :=
  [mkSnvNode "P1" 0 "1" 100 "C" "A";
   mkSnvNode "P1" 1 "2" 250 "A" "C";
   mkSnvNode "P1" 1 "4" 40 "T" "G"].

(** Node variants with context indices: 101 on node 1 of a patient and 100
    on its node 0. *)
Definition descendant_nodes : list (snv_node_row * Z) :=
  repeat (mkSnvNode "P1" 1 "1" 100 "C" "A", 0%Z) 101
  ++ repeat (mkSnvNode "P1" 0 "1" 100 "C" "A", 0%Z) 100.

(** A stand-in for the inference engine that keeps the simplex contract:
    every group has all its weight on the first topic. *)
Definition first_topic_transform : lda_transform :=
  fun model X _ =>
    ret (map (fun _ => match n_topics model with
                       | O => []
                       | S m => 1%float :: repeat 0%float m
                       end) X).

(** A tolerance for the row sums. *)
Definition sum_tolerance : float := 0x1p-30%float.


(** An identifier ends in [Node0], in the words of the specification. *)
Definition ends_in_Node0 (a : string) : Prop := exists p, a = (p ++ "Node0")%string.

(** ** Theorems *)

Lemma str_chars (s : string) : str (chars s) = s.
Proof. apply string_of_list_ascii_of_string. Qed.

Lemma chars_str (cs : list ascii) : chars (str cs) = cs.
Proof. apply list_ascii_of_string_of_list_ascii. Qed.

Lemma translate_char_complement (c : ascii) :
  translate_char (maketrans "ACTGactg" "TGACtgac") c = complement_base c.
Proof.
  destruct c as [[] [] [] [] [] [] [] []]; vm_compute; reflexivity.
Qed.

Lemma complement_base_involutive (c : ascii) :
  complement_base (complement_base c) = c.
Proof.
  destruct c as [[] [] [] [] [] [] [] []]; vm_compute; reflexivity.
Qed.

Lemma complement_base_case (c : ascii) :
  is_base c = true ->
  is_base (complement_base c) = true /\
  is_upper (complement_base c) = is_upper c /\
  complement_base c <> c.
Proof.
  destruct c as [[] [] [] [] [] [] [] []]; vm_compute; intros H;
    try discriminate H; repeat split; discriminate.
Qed.

Lemma reverse_complement_spec (s : string) :
  reverse_complement s = str (rev (map complement_base (chars s))).
Proof.
  unfold reverse_complement, translate, reversed.
  rewrite chars_str, <- map_rev. f_equal.
  apply map_ext. intros c. apply translate_char_complement.
Qed.

Lemma reverse_complement_involutive_all (s : string) :
  reverse_complement (reverse_complement s) = s.
Proof.
  rewrite !reverse_complement_spec, chars_str.
  rewrite <- map_rev, rev_involutive, map_map.
  rewrite (map_ext _ (fun c => c)).
  - rewrite map_id. apply str_chars.
  - apply complement_base_involutive.
Qed.

(** C7: on every string over the bases A, C, G, T in either case,
    [reverse_complement] applied twice gives the string back, and one
    application is the reversal of the string with A<->T and C<->G
    substituted, upper case staying upper and lower case staying lower. *)
Theorem reverse_complement_involution (s : string) :
  over_bases s ->
  reverse_complement (reverse_complement s) = s /\
  reverse_complement s = str (rev (map complement_base (chars s))) /\
  over_bases (reverse_complement s) /\
  map is_upper (chars (reverse_complement s)) = rev (map is_upper (chars s)).
Proof.
  intros Hs. split; [apply reverse_complement_involutive_all|].
  split; [apply reverse_complement_spec|].
  unfold over_bases in *. rewrite reverse_complement_spec, chars_str.
  rewrite forallb_forall in Hs. split.
  - apply forallb_forall. intros c Hc.
    apply in_rev, in_map_iff in Hc. destruct Hc as (b & <- & Hb).
    apply complement_base_case, Hs, Hb.
  - rewrite <- map_rev, map_map, map_rev. f_equal.
    apply map_ext_in. intros c Hc.
    apply complement_base_case, Hs, Hc.
Qed.

Lemma reverse_complement_involution_witness :
  over_bases "aCG" /\
  reverse_complement (reverse_complement "aCG") = "aCG" /\
  reverse_complement "aCG" = "CGt".
Proof.
  split; [reflexivity|].
  split; [apply (reverse_complement_involution "aCG"); reflexivity|].
  reflexivity.
Defined.

(** ** Group keys and group-by *)

Lemma existsb_on_map {A B : Type} (f : A -> B) (p : B -> bool) (l : list A) :
  existsb p (map f l) = existsb (fun a => p (f a)) l.
Proof.
  induction l as [|a l IH]; simpl; [reflexivity|]. now rewrite IH.
Qed.

Lemma existsb_pointwise {A : Type} (p q : A -> bool) (l : list A) :
  (forall a, p a = q a) -> existsb p l = existsb q l.
Proof.
  intros H. induction l as [|a l IH]; simpl; [reflexivity|].
  now rewrite H, IH.
Qed.

Lemma filter_none {A : Type} (p : A -> bool) (l : list A) :
  existsb p l = false -> filter p l = [].
Proof.
  induction l as [|a l IH]; simpl; [reflexivity|].
  destruct (p a); simpl; [discriminate|exact IH].
Qed.

Section KeyFacts.
Context {K : Type} (leb eqb : K -> K -> bool).
Hypothesis eqb_eq : forall a b, eqb a b = true <-> a = b.

Lemma in_insert_key (k x : K) (ks : list K) :
  In x (insert_key leb eqb k ks) <-> x = k \/ In x ks.
Proof.
  induction ks as [|k' ks IH]; simpl.
  - intuition.
  - destruct (eqb k k') eqn:E.
    + apply eqb_eq in E. subst k'. simpl. intuition.
    + destruct (leb k k'); simpl; [intuition|].
      rewrite IH. intuition.
Qed.

Lemma in_fold_insert_key (x : K) (ks acc : list K) :
  In x (fold_left (fun acc k => insert_key leb eqb k acc) ks acc) <->
  In x ks \/ In x acc.
Proof.
  revert acc. induction ks as [|k ks IH]; intros acc; simpl.
  - intuition.
  - rewrite IH, in_insert_key. intuition.
Qed.

Lemma in_unique_sorted (x : K) (ks : list K) :
  In x (unique_sorted leb eqb ks) <-> In x ks.
Proof.
  unfold unique_sorted. rewrite in_fold_insert_key. simpl. intuition.
Qed.

Lemma lookup_tabulate {V : Type} (f : K -> V) (k : K) (ks : list K) :
  lookup eqb k (map (fun k' => (k', f k')) ks) =
  if existsb (fun k' => eqb k' k) ks then Some (f k) else None.
Proof.
  induction ks as [|k' ks IH]; simpl; [reflexivity|].
  destruct (eqb k' k) eqn:E; simpl; [|exact IH].
  apply eqb_eq in E. now subst.
Qed.

Lemma existsb_unique_sorted (k : K) (ks : list K) :
  existsb (fun k' => eqb k' k) (unique_sorted leb eqb ks) =
  existsb (fun k' => eqb k' k) ks.
Proof.
  apply eq_true_iff_eq. rewrite !existsb_exists.
  split; intros (x & Hx & E); exists x; split; auto;
    now apply in_unique_sorted.
Qed.

Lemma lookup_groupby {R : Type} (key : R -> K) (rows : list R) (k : K) :
  lookup eqb k (groupby leb eqb key rows) =
  if existsb (fun r => eqb (key r) k) rows
  then Some (filter (fun r => eqb (key r) k) rows)
  else None.
Proof.
  unfold groupby.
  rewrite (lookup_tabulate (fun k => filter (fun r => eqb (key r) k) rows)).
  rewrite existsb_unique_sorted. now rewrite existsb_on_map.
Qed.

Lemma in_loc_rows {R : Type} (col : R -> K) (rows : list R)
      (labels : list K) (r : R) :
  In r (loc_rows eqb col rows labels) <-> In r rows /\ In (col r) labels.
Proof.
  unfold loc_rows. rewrite in_flat_map. split.
  - intros (k & Hk & Hr). apply filter_In in Hr as [Hr E].
    apply eqb_eq in E. subst. auto.
  - intros [Hr Hl]. exists (col r). split; auto.
    apply filter_In. split; auto. now apply eqb_eq.
Qed.
End KeyFacts.

Lemma pair_eqb_eq {A B} (eqa : A -> A -> bool) (eqb : B -> B -> bool) :
  (forall a b, eqa a b = true <-> a = b) ->
  (forall a b, eqb a b = true <-> a = b) ->
  forall x y, pair_eqb eqa eqb x y = true <-> x = y.
Proof.
  intros Ha Hb [a b] [a' b']. unfold pair_eqb. simpl.
  rewrite andb_true_iff, Ha, Hb. split; [intros [-> ->]|intros [= -> ->]]; auto.
Qed.

Lemma length_filter_count {R : Type} (key : R -> string) (rows : list R) (k : string) :
  List.length (filter (fun r => String.eqb (key r) k) rows) = group_count key rows k.
Proof.
  unfold group_count. induction rows as [|r rows IH]; simpl; [reflexivity|].
  destruct (String.eqb_spec (key r) k) as [E|E];
    destruct (string_dec (key r) k); try contradiction; simpl; now rewrite IH.
Qed.

Lemma group_count_pos {R : Type} (subset_col0 : R -> string) (rows : list R)
      (k : string) :
  (0 < group_count subset_col0 rows k)%nat <->
  exists r, In r rows /\ subset_col0 r = k.
Proof.
  unfold group_count.
  change (0 < ?n)%nat with (n > 0)%nat.
  rewrite <- (count_occ_In string_dec), in_map_iff.
  split; intros (r & H1 & H2); exists r; auto.
Qed.

(** ** The count filter and the count matrix *)

Section FitFacts.
Context {Row : Type} (tri_nuc_idx_col : Row -> Z).
Variable subset_col : Row -> string.
Variable snvs_table : list Row.

(** The labels selected on line 19 are the groups above the cutoff. *)
Lemma in_kept_labels (k : string) :
  In k (map fst (filter (fun kv => (100 <? snd kv)%nat)
                        (snv_counts snvs_table subset_col))) <->
  (100 < group_count subset_col snvs_table k)%nat.
Proof.
  unfold snv_counts, size, groupby. rewrite !map_map, in_map_iff. simpl.
  split.
  - intros ([k' n] & Hk & Hin). simpl in Hk. subst k'.
    apply filter_In in Hin as [Hin Hn]. simpl in Hn.
    apply in_map_iff in Hin as (k' & [= <- <-] & _).
    rewrite length_filter_count in Hn. now apply Nat.ltb_lt.
  - intros Hn.
    assert (exists r, In r snvs_table /\ subset_col r = k) as (r & Hr & Hk)
      by (apply group_count_pos; lia).
    eexists (k, _). split; [reflexivity|].
    apply filter_In. split.
    + apply in_map_iff. exists k. split; [reflexivity|].
      apply (in_unique_sorted _ _ String.eqb_eq). subst k. now apply in_map.
    + simpl. rewrite length_filter_count. now apply Nat.ltb_lt.
Qed.

Lemma in_filter_samples (r : Row) :
  In r (filter_samples snvs_table subset_col) <->
  In r snvs_table /\ (100 < group_count subset_col snvs_table (subset_col r))%nat.
Proof.
  unfold filter_samples.
  now rewrite (in_loc_rows _ String.eqb_eq), in_kept_labels.
Qed.

Let pair_key (r : Row) : string * Z := (subset_col r, tri_nuc_idx_col r).

Lemma in_sizes_keys (p : string * Z) (rows : list Row) :
  In p (map fst (size (groupby (pair_leb String.leb String.eqb Z.leb)
                               (pair_eqb String.eqb Z.eqb) pair_key rows))) <->
  exists r, In r rows /\ pair_key r = p.
Proof.
  unfold size, groupby. rewrite !map_map. simpl. rewrite map_id.
  rewrite (in_unique_sorted _ _ (pair_eqb_eq _ _ String.eqb_eq Z.eqb_eq)).
  rewrite in_map_iff. split; intros (r & H1 & H2); exists r; auto.
Qed.

(** The row labels of the count matrix are the groups above the cutoff. *)
Lemma tri_nuc_table_index (k : string) :
  In k (index (tri_nuc_table tri_nuc_idx_col snvs_table subset_col)) <->
  (100 < group_count subset_col snvs_table k)%nat.
Proof.
  unfold tri_nuc_table, astype_int, fillna, unstack. simpl.
  rewrite (in_unique_sorted _ _ String.eqb_eq).
  rewrite <- map_map, in_map_iff. split.
  - intros (p & <- & Hp). apply in_sizes_keys in Hp as (r & Hr & <-).
    apply in_filter_samples in Hr. simpl. tauto.
  - intros Hk.
    assert (exists r, In r snvs_table /\ subset_col r = k) as (r & Hr & <-)
      by (apply group_count_pos; lia).
    exists (pair_key r). split; [reflexivity|].
    apply in_sizes_keys. exists r. split; [|reflexivity].
    apply in_filter_samples. auto.
Qed.

(** Its column labels are the context indices that occur in those groups,
    and no others. *)
Lemma tri_nuc_table_columns (c : Z) :
  In c (columns (tri_nuc_table tri_nuc_idx_col snvs_table subset_col)) <->
  exists r, In r (filter_samples snvs_table subset_col) /\ tri_nuc_idx_col r = c.
Proof.
  unfold tri_nuc_table, astype_int, fillna, unstack. simpl.
  rewrite (in_unique_sorted _ _ Z.eqb_eq).
  rewrite <- map_map, in_map_iff. split.
  - intros (p & <- & Hp). apply in_sizes_keys in Hp as (r & Hr & <-).
    exists r. auto.
  - intros (r & Hr & <-). exists (pair_key r). split; [reflexivity|].
    apply in_sizes_keys. exists r. auto.
Qed.

(** Its cells are the numbers of variants of the group in the context: 0
    where the group has none. *)
Lemma tri_nuc_table_values :
  let counts := tri_nuc_table tri_nuc_idx_col snvs_table subset_col in
  values counts =
  map (fun k =>
         map (fun c =>
                Z.of_nat (List.length
                  (filter (fun r => String.eqb (subset_col r) k
                                    && Z.eqb (tri_nuc_idx_col r) c)
                          (filter_samples snvs_table subset_col))))
             (columns counts))
      (index counts).
Proof.
  unfold tri_nuc_table, astype_int, fillna, unstack. simpl.
  rewrite !map_map. apply map_ext. intros k.
  rewrite !map_map. apply map_ext. intros c. f_equal.
  unfold size, groupby. rewrite map_map. simpl.
  rewrite (lookup_tabulate _ (pair_eqb_eq _ _ String.eqb_eq Z.eqb_eq)
             (fun p => List.length (filter (fun r => pair_eqb String.eqb Z.eqb
                                                        (pair_key r) p) _))).
  rewrite existsb_unique_sorted
    by apply (pair_eqb_eq _ _ String.eqb_eq Z.eqb_eq).
  rewrite existsb_on_map.
  destruct (existsb _ _) eqn:E; [reflexivity|].
  symmetry. apply length_zero_iff_nil, filter_none. exact E.
Qed.

Lemma tri_nuc_table_shape :
  List.length (values (tri_nuc_table tri_nuc_idx_col snvs_table subset_col)) =
  List.length (index (tri_nuc_table tri_nuc_idx_col snvs_table subset_col)).
Proof.
  unfold tri_nuc_table, astype_int, fillna, unstack. simpl.
  now rewrite !length_map.
Qed.
End FitFacts.

(** ** fit_sample_signatures: which groups are fitted *)

Lemma uniform_transform_shape : transform_shape uniform_transform.
Proof.
  intros model X it. eexists. split; [reflexivity|]. split.
  - apply length_map.
  - apply Forall_forall. intros row Hrow.
    apply in_map_iff in Hrow as (x & <- & _). apply repeat_length.
Qed.

Lemma list_nil_iff {A : Type} (l : list A) :
  (forall x, ~ In x l) -> l = [].
Proof.
  destruct l as [|a l]; [reflexivity|].
  intros H. destruct (H a). now left.
Qed.

(** C2: whatever the input table, when the inference engine hands back one
    row of topic weights per group, [fit_sample_signatures] returns a table
    whose row labels are exactly the grouping-key values with more than 100
    variants; a group with 100 variants or fewer is not among them. *)
Theorem fit_sample_signatures_rows
        {Row : Type} (tri_nuc_idx_col : Row -> Z) (transform : lda_transform)
        (snvs_table : list Row) (sig_prob : DataFrame Z string float)
        (subset_col : Row -> string) :
  transform_shape transform ->
  exists sample_sig,
    fit_sample_signatures tri_nuc_idx_col transform snvs_table sig_prob subset_col
    = inr sample_sig /\
    forall k, In k (index sample_sig) <->
              (100 < group_count subset_col snvs_table k)%nat.
Proof.
  intros Hshape. unfold fit_sample_signatures.
  pose proof (tri_nuc_table_index tri_nuc_idx_col subset_col snvs_table) as Hidx.
  pose proof (tri_nuc_table_shape tri_nuc_idx_col subset_col snvs_table) as Hlen.
  set (counts := tri_nuc_table tri_nuc_idx_col snvs_table subset_col) in *.
  destruct (List.length (index counts) =? 0)%nat eqn:E.
  - exists empty_frame. split; [reflexivity|].
    apply Nat.eqb_eq, length_zero_iff_nil in E.
    intros k. rewrite <- Hidx, E. reflexivity.
  - match goal with |- context [transform ?m ?X ?it] =>
      destruct (Hshape m X it) as (Y & -> & HY1 & HY2) end.
    simpl in HY2. unfold bind at 1. unfold frame_of_array.
    rewrite HY1, Hlen, Nat.eqb_refl. simpl.
    replace (forallb _ Y) with true.
    + simpl. eexists. split; [reflexivity|]. exact Hidx.
    + symmetry. apply forallb_forall. intros row Hrow.
      rewrite Forall_forall in HY2. apply Nat.eqb_eq. now apply HY2.
Qed.

Lemma fit_sample_signatures_rows_witness :
  transform_shape uniform_transform /\
  exists sample_sig,
    fit_sample_signatures snd uniform_transform one_context_table basis2 fst
    = inr sample_sig /\
    forall k, In k (index sample_sig) <->
              (100 < group_count fst one_context_table k)%nat.
Proof.
  split; [exact uniform_transform_shape|].
  apply (fit_sample_signatures_rows snd uniform_transform one_context_table
                                    basis2 fst).
  exact uniform_transform_shape.
Defined.

(** C3, at a table in which the only group above the cutoff has all its
    variants in context 1: the count matrix has that one column, so the
    counts of context 1 sit in its first position, and it does not have one
    column per context of the basis. *)
Theorem tri_nuc_table_one_context :
  let counts := tri_nuc_table snd one_context_table fst in
  index counts = ["P1_S1"] /\
  columns counts = [1%Z] /\
  values counts = [[101%Z]] /\
  List.length (columns counts) <> 96%nat /\
  List.length (columns counts) <> List.length (index basis2).
Proof.
  vm_compute. repeat split; discriminate.
Qed.

(** C5: when no group has more than 100 variants, and so for the table
    without rows, [fit_sample_signatures] returns the empty table; the
    inference engine is not reached. *)
Theorem fit_sample_signatures_empty
        {Row : Type} (tri_nuc_idx_col : Row -> Z) (transform : lda_transform)
        (snvs_table : list Row) (sig_prob : DataFrame Z string float)
        (subset_col : Row -> string) :
  (forall k, (group_count subset_col snvs_table k <= 100)%nat) ->
  fit_sample_signatures tri_nuc_idx_col transform snvs_table sig_prob subset_col
  = inr empty_frame.
Proof.
  intros Hsmall. unfold fit_sample_signatures.
  rewrite (list_nil_iff (index (tri_nuc_table tri_nuc_idx_col snvs_table subset_col))).
  - reflexivity.
  - intros k Hk. apply tri_nuc_table_index in Hk. specialize (Hsmall k). lia.
Qed.

Lemma fit_sample_signatures_empty_witness :
  (forall k, (group_count (@fst string Z) [] k <= 100)%nat) /\
  fit_sample_signatures snd (fun _ _ _ => raise (LibraryError "unreachable"))
                        [] basis2 fst = inr empty_frame.
Proof.
  split; [intros k; unfold group_count; simpl; lia|].
  apply (fit_sample_signatures_empty snd _ [] basis2 fst).
  intros k. unfold group_count. simpl. lia.
Defined.

(** ** String suffixes *)

Lemma substring_append_r (p s : string) :
  substring (String.length p) (String.length s) (p ++ s)%string = s.
Proof.
  induction p as [|c p IH]; simpl.
  - induction s as [|c s IH]; simpl; [reflexivity|]. now rewrite IH.
  - exact IH.
Qed.

Lemma length_append (p s : string) :
  String.length (p ++ s)%string = (String.length p + String.length s)%nat.
Proof.
  induction p as [|c p IH]; simpl; [reflexivity|]. now rewrite IH.
Qed.

Lemma substring_split (s : string) (k : nat) :
  (k <= String.length s)%nat ->
  s = (substring 0 k s ++ substring k (String.length s - k) s)%string.
Proof.
  revert k. induction s as [|c s IH]; intros k Hk.
  - destruct k; reflexivity.
  - destruct k as [|k]; simpl.
    + f_equal. clear. induction s as [|c s IH]; simpl; [reflexivity|].
      now rewrite <- IH.
    + f_equal. apply IH. simpl in Hk. lia.
Qed.

Lemma endswith_iff (s suffix : string) :
  endswith s suffix = true <-> exists p, s = (p ++ suffix)%string.
Proof.
  unfold endswith. rewrite andb_true_iff, Nat.leb_le, String.eqb_eq. split.
  - intros [Hle Hsub].
    exists (substring 0 (String.length s - String.length suffix) s).
    pose proof (substring_split s (String.length s - String.length suffix)) as Hs.
    replace (String.length s - (String.length s - String.length suffix))%nat
      with (String.length suffix) in Hs by lia.
    rewrite Hsub in Hs. apply Hs. lia.
  - intros (p & ->). rewrite length_append. split; [lia|].
    replace (String.length p + String.length suffix - String.length suffix)%nat
      with (String.length p) by lia.
    apply substring_append_r.
Qed.

Lemma is_node0_iff (a : string) : is_node0 a = true <-> ends_in_Node0 a.
Proof. apply endswith_iff. Qed.

(** ** test_ancestral_descendant *)

Lemma bool_eqb_eq (a b : bool) : Bool.eqb a b = true <-> a = b.
Proof. apply Bool.eqb_true_iff. Qed.

Section RankTestFacts.
Variable mannwhitneyu : mannwhitneyu_t.

Let class (e : string * float) : bool := is_node0 (fst e).

(** The dictionary built on line 49 holds, under each Boolean for which some
    identifier answers the suffix test that way, the entries of that class in
    their original order, and has no other key. *)
Lemma class_dict (data : Series string float) (b : bool) :
  dict_getitem (groupby bool_leb Bool.eqb class data) b =
  if existsb (fun e => Bool.eqb (class e) b) data
  then ret (filter (fun e => Bool.eqb (class e) b) data)
  else raise (KeyError (repr_bool b)).
Proof.
  unfold dict_getitem. rewrite (lookup_groupby _ _ bool_eqb_eq).
  now destruct (existsb _ data).
Qed.

Lemma class_true (e : string * float) : Bool.eqb (class e) true = class e.
Proof. now destruct (class e). Qed.

Lemma class_false (e : string * float) : Bool.eqb (class e) false = negb (class e).
Proof. now destruct (class e). Qed.

Lemma test_ancestral_descendant_eq (data : Series string float) :
  test_ancestral_descendant mannwhitneyu data =
  if existsb class data then
    if existsb (fun e => negb (class e)) data then
      bind (mannwhitneyu (map snd (filter class data))
                         (map snd (filter (fun e => negb (class e)) data)))
           (fun r => ret (snd r))
    else raise (KeyError "False")
  else raise (KeyError "True").
Proof.
  unfold test_ancestral_descendant. fold class. rewrite !class_dict.
  rewrite (existsb_pointwise _ _ data class_true).
  rewrite (existsb_pointwise _ _ data class_false).
  rewrite (filter_ext _ _ class_true), (filter_ext _ _ class_false).
  destruct (existsb class data); [|reflexivity].
  destruct (existsb _ data); reflexivity.
Qed.
End RankTestFacts.




(** C6: on a series in which no identifier ends in [Node0], or in which
    every identifier does, [test_ancestral_descendant] raises (the lookup of
    the missing class in the dictionary fails) and returns no value. *)
Theorem test_ancestral_descendant_empty_class
        (mannwhitneyu : mannwhitneyu_t) (data : Series string float) :
  (forall e, In e data -> ~ ends_in_Node0 (fst e)) \/
  (forall e, In e data -> ends_in_Node0 (fst e)) ->
  exists key, test_ancestral_descendant mannwhitneyu data = inl (KeyError key).
Proof.
  intros H. rewrite test_ancestral_descendant_eq.
  destruct (existsb (fun e => is_node0 (fst e)) data) eqn:Ea;
    [|eexists; reflexivity].
  destruct (existsb (fun e => negb (is_node0 (fst e))) data) eqn:Ed;
    [|eexists; reflexivity].
  exfalso.
  apply existsb_exists in Ea as (a & Ha & Hanc).
  apply existsb_exists in Ed as (d & Hd & Hdesc).
  apply is_node0_iff in Hanc.
  apply negb_true_iff, not_true_iff_false in Hdesc.
  rewrite is_node0_iff in Hdesc.
  destruct H as [H|H]; [apply (H a Ha Hanc)|apply Hdesc, (H d Hd)].
Qed.

Lemma test_ancestral_descendant_empty_class_witness :
  exists key,
    test_ancestral_descendant toy_mannwhitneyu
      [("P1_Node1", 0.25%float); ("P1_Node2", 0.5%float)] = inl (KeyError key).
Proof.
  apply (test_ancestral_descendant_empty_class toy_mannwhitneyu
           [("P1_Node1", 0.25%float); ("P1_Node2", 0.5%float)]).
  left. intros e [<-|[<-|[]]] H; apply is_node0_iff in H; discriminate H.
Defined.

(** ** plot_signature_boxplots *)

Lemma mapM_inr {A B : Type} (f : A -> result B) (xs : list A) (ys : list B) :
  mapM f xs = inr ys -> Forall2 (fun x y => f x = inr y) xs ys.
Proof.
  revert ys. induction xs as [|x xs IH]; simpl; intros ys H.
  - injection H as <-. constructor.
  - destruct (f x) as [e|y] eqn:Ex; simpl in H; [discriminate|].
    destruct (mapM f xs) as [e|ys'] eqn:Exs; simpl in H; [discriminate|].
    injection H as <-. constructor; auto.
Qed.

Lemma mapM_total {A B : Type} (f : A -> result B) (xs : list A) :
  (forall x, In x xs -> exists y, f x = inr y) -> exists ys, mapM f xs = inr ys.
Proof.
  induction xs as [|x xs IH]; simpl; intros H.
  - eexists. reflexivity.
  - destruct (H x (or_introl eq_refl)) as (y & ->).
    destruct IH as (ys & ->); [intros; apply H; auto|].
    eexists. reflexivity.
Qed.

Lemma Forall2_in_r {A B : Type} (P : A -> B -> Prop) (xs : list A) (ys : list B) :
  Forall2 P xs ys -> forall y, In y ys -> exists x, In x xs /\ P x y.
Proof.
  induction 1 as [|x y xs ys Hxy _ IH]; simpl; intros z Hz; [contradiction|].
  destruct Hz as [<-|Hz]; [exists x; auto|].
  destruct (IH z Hz) as (x' & Hx' & HP). exists x'. auto.
Qed.

Lemma Forall2_in_l {A B : Type} (P : A -> B -> Prop) (xs : list A) (ys : list B) :
  Forall2 P xs ys -> forall x, In x xs -> exists y, In y ys /\ P x y.
Proof.
  induction 1 as [|x y xs ys Hxy _ IH]; simpl; intros z Hz; [contradiction|].
  destruct Hz as [<-|Hz]; [exists y; auto|].
  destruct (IH z Hz) as (y' & Hy' & HP). exists y'. auto.
Qed.

Lemma nth_label (cols : list string) (j : nat) (s : string) :
  nth_error cols j = Some s <-> (j < List.length cols)%nat /\ nth j cols "" = s.
Proof.
  split.
  - intros H. split; [apply nth_error_Some; congruence|].
    now apply nth_error_nth.
  - intros [Hj <-]. now apply nth_error_nth'.
Qed.

Lemma in_loc_columns (sample_sig data : DataFrame string string float)
      (labels : list string) (s : string) :
  loc_columns sample_sig labels = inr data ->
  In s (columns data) <-> In s labels /\ In s (columns sample_sig).
Proof.
  unfold loc_columns. destruct (forallb _ labels); [|discriminate].
  intros [= <-]. simpl. rewrite in_map_iff. split.
  - intros (j & <- & Hj). apply in_flat_map in Hj as (l & Hl & Hj).
    apply filter_In in Hj as [Hj E]. apply String.eqb_eq in E.
    apply in_seq in Hj. split; [now rewrite E|].
    apply nth_In. lia.
  - intros [Hl Hs]. destruct (In_nth _ _ "" Hs) as (j & Hj & E).
    exists j. split; [exact E|]. apply in_flat_map. exists s. split; [exact Hl|].
    apply filter_In. split; [apply in_seq; lia|]. now apply String.eqb_eq.
Qed.

Lemma loc_columns_total (sample_sig : DataFrame string string float)
      (labels : list string) :
  (forall l, In l labels -> In l (columns sample_sig)) ->
  exists data, loc_columns sample_sig labels = inr data.
Proof.
  intros H. unfold loc_columns. replace (forallb _ labels) with true.
  - eexists. reflexivity.
  - symmetry. apply forallb_forall. intros l Hl. apply existsb_exists.
    exists l. split; [now apply H|apply String.eqb_refl].
Qed.

Section BoxplotFacts.
Variable mannwhitneyu : mannwhitneyu_t.
Variable sample_sig : DataFrame string string float.

Let pvalue (j : nat) : result float :=
  test_ancestral_descendant mannwhitneyu (column 0%float sample_sig j).

(** The series of p-values has one entry per column, under its label. *)
Lemma apply_columns_entries (test_pvalue : Series string float) :
  apply_columns (test_ancestral_descendant mannwhitneyu) sample_sig
  = inr (inl test_pvalue) ->
  forall s p, In (s, p) test_pvalue <->
              exists j, nth_error (columns sample_sig) j = Some s /\
                        pvalue j = inr p.
Proof.
  unfold apply_columns. destruct (_ || _); [discriminate|].
  destruct (mapM _ _) as [e|pv] eqn:E; simpl; [discriminate|].
  intros [= <-]. apply mapM_inr in E. intros s p. split.
  - intros Hin. destruct (Forall2_in_r _ _ _ E _ Hin) as (j & Hj & Hp).
    apply in_seq in Hj. fold (pvalue j) in Hp.
    destruct (pvalue j) as [e|q] eqn:Eq; simpl in Hp; [discriminate|].
    injection Hp as <- <-. exists j. split; [|exact Eq].
    apply nth_label. split; [lia|reflexivity].
  - intros (j & Hj & Hp). apply nth_label in Hj as [Hj <-].
    destruct (Forall2_in_l _ _ _ E j) as ([s' p'] & Hin & Hsp);
      [apply in_seq; lia|].
    fold (pvalue j) in Hsp. rewrite Hp in Hsp. simpl in Hsp.
    now injection Hsp as <- <-.
Qed.

(** When [apply] gives the table back, it is the table itself, one of its
    axes is empty and no column has a p-value. *)
Lemma apply_columns_table (table : DataFrame string string float) :
  apply_columns (test_ancestral_descendant mannwhitneyu) sample_sig
  = inr (inr table) ->
  table = sample_sig /\
  (index sample_sig = [] \/ columns sample_sig = []) /\
  forall j s p, nth_error (columns sample_sig) j = Some s -> pvalue j <> inr p.
Proof.
  unfold apply_columns.
  destruct (List.length (index sample_sig) =? 0)%nat eqn:Ei; simpl.
  - intros [= <-]. apply Nat.eqb_eq, length_zero_iff_nil in Ei.
    split; [reflexivity|]. split; [now left|].
    intros j s p _. unfold pvalue, column. rewrite Ei. simpl.
    rewrite test_ancestral_descendant_eq. simpl. discriminate.
  - destruct (List.length (columns sample_sig) =? 0)%nat eqn:Ec; simpl.
    + intros [= <-]. apply Nat.eqb_eq, length_zero_iff_nil in Ec.
      split; [reflexivity|]. split; [now right|].
      intros j s p Hj. rewrite Ec in Hj. now destruct j.
    + destruct (mapM _ _); simpl; discriminate.
Qed.

Lemma plot_signature_boxplots_columns (pvalue_threshold : option float)
      (data : DataFrame string string float) :
  plot_signature_boxplots mannwhitneyu sample_sig pvalue_threshold = inr data ->
  forall s, In s (columns data) <->
            exists j p, nth_error (columns sample_sig) j = Some s /\
                        pvalue j = inr p /\
                        ltb p (threshold_of pvalue_threshold) = true.
Proof.
  unfold plot_signature_boxplots.
  destruct (apply_columns _ sample_sig) as [e|[test_pvalue|table]] eqn:E; simpl;
    [discriminate| |]; intros Hloc s; rewrite (in_loc_columns _ _ _ _ Hloc).
  - pose proof (apply_columns_entries _ E) as Hpv.
    rewrite in_map_iff. split.
    + intros [([s' p] & Hs & Hin) _]. simpl in Hs. subst s'.
      apply filter_In in Hin as [Hin Hlt]. simpl in Hlt.
      apply Hpv in Hin as (j & Hj & Hp). exists j, p. auto.
    + intros (j & p & Hj & Hp & Hlt). split.
      * exists (s, p). split; [reflexivity|]. apply filter_In. split; [|exact Hlt].
        apply Hpv. exists j. auto.
      * eapply nth_error_In, Hj.
  - destruct (apply_columns_table _ E) as (-> & Hempty & Hnone). split.
    + intros [Hi Hc]. destruct Hempty as [H0|H0]; rewrite H0 in *; contradiction.
    + intros (j & p & Hj & Hp & _). exfalso. exact (Hnone j s p Hj Hp).
Qed.

Lemma plot_signature_boxplots_total (pvalue_threshold : option float) :
  columns sample_sig <> [] ->
  (forall j, (j < List.length (columns sample_sig))%nat -> exists p, pvalue j = inr p) ->
  exists data,
    plot_signature_boxplots mannwhitneyu sample_sig pvalue_threshold = inr data.
Proof.
  intros Hcols Hall. unfold plot_signature_boxplots.
  destruct (apply_columns _ sample_sig) as [e|[test_pvalue|table]] eqn:E; simpl.
  - exfalso. revert E. unfold apply_columns. destruct (_ || _); [discriminate|].
    match goal with |- context [mapM ?f ?xs] =>
      destruct (mapM_total f xs) as (pv & ->) end; [|discriminate].
    intros j Hj. apply in_seq in Hj. destruct (Hall j) as (p & Hp); [lia|].
    unfold pvalue in Hp. rewrite Hp. simpl. eexists. reflexivity.
  - apply loc_columns_total. intros l Hl.
    apply in_map_iff in Hl as ([s p] & <- & Hin).
    apply filter_In in Hin as [Hin _].
    apply (apply_columns_entries _ E) in Hin as (j & Hj & _).
    eapply nth_error_In, Hj.
  - exfalso. destruct (apply_columns_table _ E) as (_ & _ & Hnone).
    destruct (columns sample_sig) as [|c cols] eqn:Ec; [now apply Hcols|].
    destruct (Hall 0%nat) as (p & Hp); [simpl; lia|].
    apply (Hnone 0%nat c p); [reflexivity|exact Hp].
Qed.
End BoxplotFacts.

(** C9: on a table with a signature column, when the rank test gives a
    p-value for every signature column,
    [plot_signature_boxplots] keeps for plotting exactly the signature
    labels of the columns whose p-value is strictly below the threshold (a
    column whose p-value is not below it is left out), and the threshold is
    0.01 when the caller passes none. *)
Theorem plot_signature_boxplots_retained
        (mannwhitneyu : mannwhitneyu_t)
        (sample_sig : DataFrame string string float)
        (pvalue_threshold : option float) :
  let pvalue j :=
    test_ancestral_descendant mannwhitneyu (column 0%float sample_sig j) in
  let threshold :=
    match pvalue_threshold with Some t => t | None => 0.01%float end in
  columns sample_sig <> [] ->
  (forall j, (j < List.length (columns sample_sig))%nat ->
             exists p, pvalue j = inr p) ->
  exists data,
    plot_signature_boxplots mannwhitneyu sample_sig pvalue_threshold = inr data /\
    (forall s, In s (columns data) <->
               exists j p, nth_error (columns sample_sig) j = Some s /\
                           pvalue j = inr p /\ ltb p threshold = true) /\
    (NoDup (columns sample_sig) ->
     forall j s p, nth_error (columns sample_sig) j = Some s ->
                   pvalue j = inr p -> ltb p threshold = false ->
                   ~ In s (columns data)).
Proof.
  intros pvalue threshold Hcol Hall.
  destruct (plot_signature_boxplots_total mannwhitneyu sample_sig
              pvalue_threshold Hcol Hall) as (data & Hdata).
  pose proof (plot_signature_boxplots_columns mannwhitneyu sample_sig
                pvalue_threshold data Hdata) as Hcols.
  exists data. split; [exact Hdata|]. split; [exact Hcols|].
  intros Hnodup j s p Hj Hp Hge Hin.
  apply Hcols in Hin as (j' & p' & Hj' & Hp' & Hlt).
  assert (j' = j) as ->.
  { apply (proj1 (NoDup_nth_error (columns sample_sig)) Hnodup).
    - apply nth_error_Some. congruence.
    - congruence. }
  fold (pvalue j) in Hp'. rewrite Hp in Hp'. injection Hp' as <-.
  change (threshold_of pvalue_threshold) with threshold in Hlt. congruence.
Qed.

Lemma plot_signature_boxplots_retained_witness :
  exists data,
    plot_signature_boxplots toy_mannwhitneyu node_sig3 None = inr data /\
    columns data = ["2"].
Proof.
  destruct (plot_signature_boxplots_retained toy_mannwhitneyu node_sig3 None)
    as (data & Hdata & _).
  - discriminate.
  - intros [|[|j]] Hj; [eexists; reflexivity|eexists; reflexivity|].
    simpl in Hj. lia.
  - exists data. split; [exact Hdata|].
    vm_compute in Hdata. now injection Hdata as <-.
Defined.

(** ** load_signature_probabilities *)

Lemma mapM_pure {A B : Type} (f : A -> result B) (g : A -> B) (xs : list A) :
  (forall x, In x xs -> f x = inr (g x)) -> mapM f xs = inr (map g xs).
Proof.
  induction xs as [|x xs IH]; simpl; intros H; [reflexivity|].
  rewrite (H x (or_introl eq_refl)). simpl.
  rewrite IH by (intros; apply H; auto). reflexivity.
Qed.

Lemma getitem_nth (l : list string) (i : nat) :
  (i < List.length l)%nat -> getitem l i = inr (nth i l "").
Proof.
  intros Hi. unfold getitem. now rewrite (nth_error_nth' l "" Hi).
Qed.

Lemma split_length (a : string) (sep : ascii) : (1 <= List.length (split a sep))%nat.
Proof.
  unfold split. destruct (split_chars sep (chars a)). simpl. lia.
Qed.

Lemma nth_error_combine {A B : Type} (l1 : list A) (l2 : list B) (i : nat) a b :
  nth_error l1 i = Some a -> nth_error l2 i = Some b ->
  nth_error (combine l1 l2) i = Some (a, b).
Proof.
  revert l2 i. induction l1 as [|x l1 IH]; intros [|y l2] [|i]; simpl;
    try discriminate; [congruence|apply IH].
Qed.

Lemma distinctb_NoDup {A : Type} (eqb : A -> A -> bool) (l : list A) :
  (forall x y, x = y -> eqb x y = true) ->
  distinctb eqb l = true -> NoDup l.
Proof.
  intros Heq. induction l as [|x l IH]; simpl; [constructor|].
  rewrite andb_true_iff, negb_true_iff. intros [Hx Hl].
  constructor; [|auto].
  intros Hin. apply not_true_iff_false in Hx. apply Hx.
  apply existsb_exists. exists x. auto.
Qed.

Lemma NoDup_map_eq {A B : Type} (f : A -> B) (l : list A) (x y : A) :
  NoDup (map f l) -> In x l -> In y l -> f x = f y -> x = y.
Proof.
  induction l as [|a l IH]; simpl; [contradiction|].
  intros Hnd Hx Hy E. inversion Hnd as [|? ? Hnotin Hnd']; subst.
  destruct Hx as [->|Hx], Hy as [->|Hy]; auto.
  - destruct Hnotin. rewrite E. now apply in_map.
  - destruct Hnotin. rewrite <- E. now apply in_map.
Qed.

Lemma triple_eqb_refl (x y : string * string * string) :
  x = y -> triple_eqb x y = true.
Proof.
  intros ->. unfold triple_eqb. now rewrite !String.eqb_refl.
Qed.

Lemma triple_reverse_complement_inj (a b : sig_entry) :
  triple (reverse_complement_entry a) = triple (reverse_complement_entry b) ->
  triple a = triple b.
Proof.
  unfold triple. simpl. intros [= E1 E2 E3].
  apply (f_equal reverse_complement) in E1, E2, E3.
  rewrite !reverse_complement_involutive_all in E1, E2, E3. congruence.
Qed.

Lemma pyrimidine_not_complement (a b : sig_entry) :
  (String.eqb (ref a) "C" || String.eqb (ref a) "T" = true) ->
  (String.eqb (ref b) "C" || String.eqb (ref b) "T" = true) ->
  triple a <> triple (reverse_complement_entry b).
Proof.
  rewrite !orb_true_iff, !String.eqb_eq. unfold triple. simpl.
  intros Ha Hb [= E _ _]. rewrite E in Ha.
  destruct Hb as [Hb|Hb]; rewrite Hb in Ha; destruct Ha as [Ha|Ha];
    vm_compute in Ha; discriminate Ha.
Qed.

Section LookupFacts.
Variable file : signature_file.

Let n : nat := List.length (Trinucleotide file).
Let idx : list Z := map Z.of_nat (seq 0 n).
Let refs : list string :=
  map (fun a => nth 0 (split a ">") "") (Substitution_Type file).
Let alts : list string :=
  map (fun a => nth 1 (split a ">") "") (Substitution_Type file).

(** The rows in the orientation of the file. *)
Let sig1 : list sig_entry :=
  map (fun r => mkSigEntry (fst (fst (fst r))) (snd (fst (fst r)))
                           (snd (fst r)) (snd r))
      (combine (combine (combine idx refs) alts) (Trinucleotide file)).

Hypothesis Hrows : List.length (Substitution_Type file) = n.
Hypothesis Hsplit : substitutions_split file = true.

Lemma load_signature_probabilities_sigs :
  exists sig_prob,
    load_signature_probabilities file
    = inr (sig1 ++ map reverse_complement_entry sig1, sig_prob).
Proof.
  unfold load_signature_probabilities.
  rewrite (mapM_pure _ (fun a => nth 0 (split a ">") "")).
  2:{ intros a _. apply getitem_nth. apply split_length. }
  rewrite (mapM_pure _ (fun a => nth 1 (split a ">") "")).
  2:{ intros a Ha. apply getitem_nth.
      unfold substitutions_split in Hsplit. rewrite forallb_forall in Hsplit.
      apply Nat.leb_le. now apply Hsplit. }
  simpl. eexists. reflexivity.
Qed.

Lemma sig1_length : List.length sig1 = n.
Proof.
  unfold sig1, idx, refs, alts.
  rewrite length_map, !length_combine, !length_map, length_seq, Hrows.
  fold n. lia.
Qed.

Lemma sig1_nth (i : nat) :
  (i < n)%nat ->
  exists e, nth_error sig1 i = Some e /\ tri_nuc_idx e = Z.of_nat i /\
            tri_nucleotide_context e = nth i (Trinucleotide file) "".
Proof.
  intros Hi. unfold sig1. eexists. split; [|split].
  - apply map_nth_error. repeat apply nth_error_combine.
    + unfold idx. apply map_nth_error.
      rewrite (nth_error_nth' _ 0%nat) by (rewrite length_seq; lia).
      now rewrite seq_nth.
    + apply (nth_error_nth' _ ""). unfold refs. rewrite length_map. lia.
    + apply (nth_error_nth' _ ""). unfold alts. rewrite length_map. lia.
    + apply (nth_error_nth' _ ""). exact Hi.
  - reflexivity.
  - reflexivity.
Qed.

Lemma sigs_functional (e1 e2 : sig_entry) :
  distinct_triples sig1 = true -> pyrimidine_refs sig1 = true ->
  In e1 (sig1 ++ map reverse_complement_entry sig1) ->
  In e2 (sig1 ++ map reverse_complement_entry sig1) ->
  triple e1 = triple e2 -> tri_nuc_idx e1 = tri_nuc_idx e2.
Proof.
  intros Hd Hp H1 H2 E.
  apply (distinctb_NoDup _ _ triple_eqb_refl) in Hd.
  unfold pyrimidine_refs in Hp. rewrite forallb_forall in Hp.
  apply in_app_or in H1, H2.
  destruct H1 as [H1|H1], H2 as [H2|H2].
  - now rewrite (NoDup_map_eq triple sig1 e1 e2 Hd H1 H2 E).
  - apply in_map_iff in H2 as (b & <- & Hb).
    destruct (pyrimidine_not_complement e1 b (Hp _ H1) (Hp _ Hb) E).
  - apply in_map_iff in H1 as (a & <- & Ha).
    destruct (pyrimidine_not_complement e2 a (Hp _ H2) (Hp _ Ha) (eq_sym E)).
  - apply in_map_iff in H1 as (a & <- & Ha).
    apply in_map_iff in H2 as (b & <- & Hb).
    apply triple_reverse_complement_inj in E.
    now rewrite (NoDup_map_eq triple sig1 a b Hd Ha Hb E).
Qed.
End LookupFacts.

(** C8: for a reference table whose substitution types all split at [>],
    [load_signature_probabilities] builds a lookup of twice as many rows in
    which row [i], in the orientation of the file, and row [n + i], its
    reverse complement in ref, alt and context, both carry the context index
    [i]; and when the file lists no triple twice and every reference base is
    C or T, two rows of the lookup with the same (ref, alt, context) triple
    carry the same context index. *)
Theorem context_lookup_reverse_complement (file : signature_file) :
  List.length (Substitution_Type file) = List.length (Trinucleotide file) ->
  substitutions_split file = true ->
  exists sigs sig_prob,
    load_signature_probabilities file = inr (sigs, sig_prob) /\
    let n := List.length (Trinucleotide file) in
    List.length sigs = (2 * n)%nat /\
    (forall i, (i < n)%nat ->
       exists e,
         nth_error sigs i = Some e /\
         nth_error sigs (n + i) = Some (reverse_complement_entry e) /\
         tri_nuc_idx e = Z.of_nat i /\
         tri_nuc_idx (reverse_complement_entry e) = Z.of_nat i /\
         triple (reverse_complement_entry e)
         = (reverse_complement (ref e), reverse_complement (alt e),
            reverse_complement (tri_nucleotide_context e))) /\
    (distinct_triples (firstn n sigs) = true ->
     pyrimidine_refs (firstn n sigs) = true ->
     forall e1 e2, In e1 sigs -> In e2 sigs ->
                   triple e1 = triple e2 -> tri_nuc_idx e1 = tri_nuc_idx e2).
Proof.
  intros Hrows Hsplit.
  destruct (load_signature_probabilities_sigs file Hsplit) as (sig_prob & Hload).
  pose proof (sig1_length file Hrows) as Hlen.
  pose proof (sig1_nth file Hrows) as Hnth.
  pose proof (sigs_functional file) as Hfun.
  cbv zeta in *.
  set (sig1 := map _ (combine _ (Trinucleotide file))) in *.
  exists (sig1 ++ map reverse_complement_entry sig1), sig_prob.
  split; [exact Hload|]. split; [|split].
  - rewrite length_app, length_map, Hlen. lia.
  - intros i Hi. destruct (Hnth i Hi) as (e & He & Hidx & _).
    exists e. split; [|split; [|split; [|split]]].
    + rewrite nth_error_app1 by (rewrite Hlen; exact Hi). exact He.
    + rewrite nth_error_app2 by (rewrite Hlen; lia).
      rewrite Hlen. replace (_ + i - _)%nat with i by lia.
      now apply map_nth_error.
    + exact Hidx.
    + exact Hidx.
    + reflexivity.
  - rewrite <- Hlen at 1 2. rewrite firstn_app, Nat.sub_diag, firstn_all.
    simpl. rewrite app_nil_r. intros Hd Hp e1 e2. now apply Hfun.
Qed.

Lemma context_lookup_reverse_complement_witness :
  exists sigs sig_prob,
    load_signature_probabilities (cosmic_file []) = inr (sigs, sig_prob) /\
    List.length sigs = 192%nat /\
    forall e1 e2, In e1 sigs -> In e2 sigs ->
                  triple e1 = triple e2 -> tri_nuc_idx e1 = tri_nuc_idx e2.
Proof.
  destruct (context_lookup_reverse_complement (cosmic_file []))
    as (sigs & sig_prob & Hload & Hlen & _ & Hfun);
    [reflexivity|reflexivity|].
  exists sigs, sig_prob. split; [exact Hload|]. split; [exact Hlen|].
  vm_compute in Hload. injection Hload as <- _.
  apply Hfun; vm_compute; reflexivity.
Defined.

(** ** reverse_complement: further properties *)

Lemma chars_length (s : string) : List.length (chars s) = String.length s.
Proof.
  induction s as [|c s IH]; simpl; [reflexivity|]. now rewrite IH.
Qed.

Lemma chars_append (a b : string) : chars (a ++ b)%string = chars a ++ chars b.
Proof.
  induction a as [|c a IH]; simpl; [reflexivity|]. now rewrite IH.
Qed.

Lemma str_app (x y : list ascii) : str (x ++ y) = (str x ++ str y)%string.
Proof.
  induction x as [|c x IH]; simpl; [reflexivity|]. now rewrite IH.
Qed.

(** The reverse complement of a concatenation is the concatenation of the
    reverse complements in the opposite order, and a sequence keeps its
    length. *)
Theorem reverse_complement_append (a b : string) :
  reverse_complement (a ++ b)%string
  = (reverse_complement b ++ reverse_complement a)%string /\
  String.length (reverse_complement a) = String.length a.
Proof.
  rewrite !reverse_complement_spec. split.
  - now rewrite chars_append, map_app, rev_app_distr, str_app.
  - now rewrite <- !chars_length, chars_str, length_rev, length_map.
Qed.

(** A sequence of bases of odd length, so a single base or a trinucleotide
    context, is never its own reverse complement. *)
Theorem reverse_complement_odd_no_fixpoint (s : string) :
  over_bases s -> Nat.odd (String.length s) = true ->
  reverse_complement s <> s.
Proof.
  intros Hs Hodd E. rewrite reverse_complement_spec in E.
  apply (f_equal chars) in E. rewrite chars_str in E.
  rewrite <- chars_length in Hodd.
  unfold over_bases in Hs. rewrite forallb_forall in Hs.
  set (l := chars s) in *.
  destruct (Nat.odd_spec (List.length l)) as [Hm _].
  destruct (Hm Hodd) as (m & Hlen).
  assert (Hmid : (m < List.length l)%nat) by lia.
  pose proof (f_equal (fun x => nth m x "000"%char) E) as Hnth. simpl in Hnth.
  rewrite rev_nth in Hnth by (rewrite length_map; exact Hmid).
  rewrite length_map in Hnth.
  replace (List.length l - S m)%nat with m in Hnth by lia.
  change "000"%char with (complement_base "000"%char) in Hnth at 1.
  rewrite map_nth in Hnth.
  destruct (complement_base_case (nth m l "000"%char)) as (_ & _ & Hne).
  - apply Hs. now apply nth_In.
  - now apply Hne.
Qed.

Lemma reverse_complement_odd_no_fixpoint_witness :
  reverse_complement "ACA" <> "ACA".
Proof.
  apply (reverse_complement_odd_no_fixpoint "ACA"); reflexivity.
Defined.

(** ** Group keys are sorted and distinct *)

Section SortedKeys.
Context {K : Type} (leb eqb : K -> K -> bool).
Hypothesis eqb_eq : forall a b, eqb a b = true <-> a = b.
Hypothesis leb_total : forall a b, leb a b = true \/ leb b a = true.
Hypothesis leb_trans : forall a b c, leb a b = true -> leb b c = true -> leb a c = true.
Hypothesis leb_antisym : forall a b, leb a b = true -> leb b a = true -> a = b.

Let below (a b : K) : Prop := leb a b = true /\ a <> b.

Lemma below_trans (a b c : K) : below a b -> below b c -> below a c.
Proof.
  intros [Hab Nab] [Hbc Nbc]. split; [eauto|].
  intros ->. apply Nab. now apply leb_antisym.
Qed.

Lemma insert_key_sorted (k : K) (ks : list K) :
  StronglySorted below ks -> StronglySorted below (insert_key leb eqb k ks).
Proof.
  induction 1 as [|k' ks Hs IH Hall]; simpl.
  - repeat constructor.
  - destruct (eqb k k') eqn:E; [now constructor|].
    assert (k <> k') as Hne by (intros Heq; apply eqb_eq in Heq; congruence).
    destruct (leb k k') eqn:L.
    + constructor; [now constructor|].
      constructor; [now split|].
      eapply Forall_impl; [|exact Hall].
      intros x Hx. apply (below_trans k k' x); [now split|exact Hx].
    + constructor; [exact IH|].
      apply Forall_forall. intros x Hx.
      apply (in_insert_key leb eqb eqb_eq) in Hx as [->|Hx].
      * split; [|congruence]. destruct (leb_total k k'); congruence.
      * rewrite Forall_forall in Hall. now apply Hall.
Qed.

Lemma unique_sorted_sorted (ks : list K) :
  StronglySorted below (unique_sorted leb eqb ks).
Proof.
  unfold unique_sorted.
  assert (H : StronglySorted below []) by constructor.
  revert H. generalize (@nil K). induction ks as [|k ks IH]; simpl; intros acc H.
  - exact H.
  - apply IH. now apply insert_key_sorted.
Qed.

Lemma sorted_NoDup (ks : list K) : StronglySorted below ks -> NoDup ks.
Proof.
  induction 1 as [|k ks _ IH Hall]; constructor; [|exact IH].
  intros Hin. rewrite Forall_forall in Hall. now destruct (Hall k Hin).
Qed.

Lemma unique_sorted_NoDup (ks : list K) : NoDup (unique_sorted leb eqb ks).
Proof. apply sorted_NoDup, unique_sorted_sorted. Qed.
End SortedKeys.

Lemma ascii_compare_refl (c : ascii) : Ascii.compare c c = Eq.
Proof. apply N.compare_refl. Qed.

Lemma ascii_compare_lt_trans (a b c : ascii) :
  Ascii.compare a b = Lt -> Ascii.compare b c = Lt -> Ascii.compare a c = Lt.
Proof.
  unfold Ascii.compare. rewrite !N.compare_lt_iff. apply N.lt_trans.
Qed.

Lemma string_compare_lt_trans (a b c : string) :
  String.compare a b = Lt -> String.compare b c = Lt -> String.compare a c = Lt.
Proof.
  revert b c. induction a as [|x a IH]; intros [|y b] [|z c]; simpl;
    try discriminate; auto.
  destruct (Ascii.compare x y) eqn:Exy; try discriminate;
    destruct (Ascii.compare y z) eqn:Eyz; try discriminate; intros H1 H2.
  - apply Ascii.compare_eq_iff in Exy, Eyz. subst.
    rewrite ascii_compare_refl. eauto.
  - apply Ascii.compare_eq_iff in Exy. subst. now rewrite Eyz.
  - apply Ascii.compare_eq_iff in Eyz. subst. now rewrite Exy.
  - now rewrite (ascii_compare_lt_trans x y z).
Qed.

Lemma string_compare_refl (a : string) : String.compare a a = Eq.
Proof.
  induction a as [|c a IH]; simpl; [reflexivity|].
  now rewrite ascii_compare_refl.
Qed.

Lemma string_leb_trans (a b c : string) :
  String.leb a b = true -> String.leb b c = true -> String.leb a c = true.
Proof.
  unfold String.leb.
  destruct (String.compare a b) eqn:Eab; try discriminate;
    destruct (String.compare b c) eqn:Ebc; try discriminate; intros _ _.
  - apply String.compare_eq_iff in Eab, Ebc. subst a b.
    now rewrite string_compare_refl.
  - apply String.compare_eq_iff in Eab. subst a. now rewrite Ebc.
  - apply String.compare_eq_iff in Ebc. subst c. now rewrite Eab.
  - now rewrite (string_compare_lt_trans a b c).
Qed.

Lemma string_ltb_iff (a b : string) :
  String.ltb a b = true <-> String.leb a b = true /\ a <> b.
Proof.
  unfold String.ltb, String.leb. split.
  - destruct (String.compare a b) eqn:E; try discriminate. intros _.
    split; [reflexivity|]. intros ->.
    rewrite string_compare_refl in E. discriminate.
  - intros [H Hne]. destruct (String.compare a b) eqn:E; try discriminate.
    + now apply String.compare_eq_iff in E.
    + reflexivity.
Qed.

Lemma Z_leb_total (a b : Z) : Z.leb a b = true \/ Z.leb b a = true.
Proof. rewrite !Z.leb_le. lia. Qed.

Lemma Z_leb_trans (a b c : Z) :
  Z.leb a b = true -> Z.leb b c = true -> Z.leb a c = true.
Proof. rewrite !Z.leb_le. lia. Qed.

Lemma Z_leb_antisym (a b : Z) : Z.leb a b = true -> Z.leb b a = true -> a = b.
Proof. rewrite !Z.leb_le. lia. Qed.

(** ** The count matrix: order of the labels and row totals *)

Lemma row_total_add {A : Type} (f g : A -> Z) (l : list A) :
  row_total (map (fun c => (f c + g c)%Z) l)
  = (row_total (map f l) + row_total (map g l))%Z.
Proof.
  induction l as [|c l IH]; simpl; [reflexivity|]. rewrite IH. lia.
Qed.

Lemma row_total_indicator (x : Z) (cols : list Z) :
  NoDup cols -> In x cols ->
  row_total (map (fun c => if Z.eqb x c then 1%Z else 0%Z) cols) = 1%Z.
Proof.
  induction 1 as [|c cols Hnotin _ IH]; simpl; [contradiction|].
  intros [->|Hin].
  - rewrite Z.eqb_refl.
    replace (row_total _) with 0%Z; [reflexivity|].
    clear IH. induction cols as [|c cols IH]; simpl; [reflexivity|].
    destruct (Z.eqb_spec x c) as [->|_]; [destruct Hnotin; now left|].
    rewrite <- IH; [reflexivity|]. intros H. apply Hnotin. now right.
  - destruct (Z.eqb_spec x c) as [->|_]; [contradiction|].
    now rewrite IH.
Qed.

Lemma row_total_zero {A : Type} (l : list A) :
  row_total (map (fun _ => 0%Z) l) = 0%Z.
Proof. induction l as [|c l IH]; simpl; [reflexivity|exact IH]. Qed.

(** Spreading the rows that satisfy [P] over the columns by their context
    index and adding the cells up counts every such row once. *)
Lemma row_total_counts {R : Type} (idx : R -> Z) (P : R -> bool)
      (cols : list Z) (rows : list R) :
  NoDup cols ->
  (forall r, In r rows -> P r = true -> In (idx r) cols) ->
  row_total (map (fun c => Z.of_nat (List.length
               (filter (fun r => P r && Z.eqb (idx r) c) rows))) cols)
  = Z.of_nat (List.length (filter P rows)).
Proof.
  intros Hnd. induction rows as [|r rows IH]; intros Hin.
  - simpl. apply row_total_zero.
  - rewrite (map_ext _ (fun c =>
       ((if P r then (if Z.eqb (idx r) c then 1 else 0) else 0)
        + Z.of_nat (List.length
            (filter (fun r => P r && Z.eqb (idx r) c) rows)))%Z)).
    2:{ intros c. cbn [filter].
        destruct (P r), (Z.eqb (idx r) c); cbn [andb List.length];
          rewrite ?Nat2Z.inj_succ; lia. }
    rewrite row_total_add, IH by (intros; apply Hin; simpl; auto).
    cbn [filter]. destruct (P r) eqn:EP; cbn [List.length].
    + rewrite row_total_indicator, Nat2Z.inj_succ; [lia|exact Hnd|].
      apply Hin; simpl; auto.
    + rewrite row_total_zero. lia.
Qed.

Lemma NoDup_map_fst_filter {A B : Type} (p : A * B -> bool) (l : list (A * B)) :
  NoDup (map fst l) -> NoDup (map fst (filter p l)).
Proof.
  induction l as [|x l IH]; simpl; intros H; [constructor|].
  inversion H as [|? ? Hnotin Hnd]; subst.
  destruct (p x); simpl; [constructor|]; auto.
  intros Hin. apply Hnotin. apply in_map_iff in Hin as (y & Hy & Hin).
  apply filter_In in Hin as [Hin _]. apply in_map_iff. eauto.
Qed.

Lemma filter_key_same {R : Type} (col : R -> string) (rows : list R) (k : string) :
  filter (fun r => String.eqb (col r) k)
         (filter (fun r => String.eqb (col r) k) rows)
  = filter (fun r => String.eqb (col r) k) rows.
Proof.
  induction rows as [|r rows IH]; simpl; [reflexivity|].
  destruct (String.eqb (col r) k) eqn:E; simpl; [rewrite E|]; now rewrite IH.
Qed.

Lemma filter_key_other {R : Type} (col : R -> string) (rows : list R)
      (k l : string) :
  l <> k ->
  filter (fun r => String.eqb (col r) k)
         (filter (fun r => String.eqb (col r) l) rows) = [].
Proof.
  intros Hl. induction rows as [|r rows IH]; simpl; [reflexivity|].
  destruct (String.eqb_spec (col r) l) as [E|E]; simpl; [|exact IH].
  destruct (String.eqb_spec (col r) k) as [E'|E']; [congruence|exact IH].
Qed.

Lemma filter_loc_rows_absent {R : Type} (col : R -> string) (rows : list R)
      (labels : list string) (k : string) :
  ~ In k labels ->
  filter (fun r => String.eqb (col r) k) (loc_rows String.eqb col rows labels) = [].
Proof.
  unfold loc_rows. induction labels as [|l labels IH]; simpl; intros Hk;
    [reflexivity|].
  rewrite filter_app, filter_key_other, IH by tauto. reflexivity.
Qed.

Lemma filter_loc_rows {R : Type} (col : R -> string) (rows : list R)
      (labels : list string) (k : string) :
  NoDup labels -> In k labels ->
  filter (fun r => String.eqb (col r) k) (loc_rows String.eqb col rows labels)
  = filter (fun r => String.eqb (col r) k) rows.
Proof.
  induction 1 as [|l labels Hnotin Hnd IH]; [contradiction|].
  intros [->|Hin]; unfold loc_rows; simpl; rewrite filter_app;
    fold (loc_rows String.eqb col rows labels).
  - now rewrite filter_key_same, filter_loc_rows_absent, app_nil_r.
  - rewrite filter_key_other, IH by (auto; intros ->; contradiction).
    reflexivity.
Qed.

Lemma StronglySorted_weaken {A : Type} (P Q : A -> A -> Prop) (l : list A) :
  (forall a b, P a b -> Q a b) -> StronglySorted P l -> StronglySorted Q l.
Proof.
  intros HPQ. induction 1 as [|a l _ IH Hall]; constructor; [exact IH|].
  eapply Forall_impl; [|exact Hall]. intros b. apply HPQ.
Qed.

Section MatrixFacts.
Context {Row : Type} (tri_nuc_idx_col : Row -> Z).
Variable subset_col : Row -> string.
Variable snvs_table : list Row.

Let counts : DataFrame string Z Z :=
  tri_nuc_table tri_nuc_idx_col snvs_table subset_col.

Lemma kept_labels_NoDup :
  NoDup (map fst (filter (fun kv => (100 <? snd kv)%nat)
                         (snv_counts snvs_table subset_col))).
Proof.
  apply NoDup_map_fst_filter.
  unfold snv_counts, size, groupby. rewrite !map_map. simpl. rewrite map_id.
  apply (unique_sorted_NoDup _ _ String.eqb_eq String.leb_total
           string_leb_trans String.leb_antisym).
Qed.

Lemma filter_samples_group (k : string) :
  (100 < group_count subset_col snvs_table k)%nat ->
  filter (fun r => String.eqb (subset_col r) k)
         (filter_samples snvs_table subset_col)
  = filter (fun r => String.eqb (subset_col r) k) snvs_table.
Proof.
  intros Hk. unfold filter_samples. apply filter_loc_rows.
  - apply kept_labels_NoDup.
  - now apply in_kept_labels.
Qed.

Lemma tri_nuc_table_index_sorted :
  StronglySorted (fun a b => String.ltb a b = true) (index counts).
Proof.
  unfold counts, tri_nuc_table, astype_int, fillna, unstack. simpl.
  eapply StronglySorted_weaken;
    [|apply (unique_sorted_sorted _ _ String.eqb_eq String.leb_total
               string_leb_trans String.leb_antisym)].
  intros a b H. now apply string_ltb_iff.
Qed.

Lemma tri_nuc_table_index_NoDup : NoDup (index counts).
Proof.
  unfold counts, tri_nuc_table, astype_int, fillna, unstack. simpl.
  apply (unique_sorted_NoDup _ _ String.eqb_eq String.leb_total
           string_leb_trans String.leb_antisym).
Qed.

Lemma tri_nuc_table_columns_NoDup : NoDup (columns counts).
Proof.
  unfold counts, tri_nuc_table, astype_int, fillna, unstack. simpl.
  apply (unique_sorted_NoDup _ _ Z.eqb_eq Z_leb_total Z_leb_trans Z_leb_antisym).
Qed.
End MatrixFacts.

(** ** fit_sample_signatures: the table it returns *)

Section FitResult.
Context {Row : Type} (tri_nuc_idx_col : Row -> Z).
Variable transform : lda_transform.
Variable snvs_table : list Row.
Variable sig_prob : DataFrame Z string float.
Variable subset_col : Row -> string.

Let counts : DataFrame string Z Z :=
  tri_nuc_table tri_nuc_idx_col snvs_table subset_col.

Lemma fit_sample_signatures_inr (sample_sig : DataFrame string string float) :
  fit_sample_signatures tri_nuc_idx_col transform snvs_table sig_prob subset_col
  = inr sample_sig ->
  index sample_sig = index counts /\
  (index counts = [] -> sample_sig = empty_frame) /\
  (index counts <> [] ->
   columns sample_sig = map strip_signature (columns sig_prob) /\
   List.length (values sample_sig) = List.length (index sample_sig) /\
   Forall (fun row => List.length row = List.length (columns sample_sig))
          (values sample_sig)).
Proof.
  unfold fit_sample_signatures. fold counts.
  destruct (List.length (index counts) =? 0)%nat eqn:E.
  - apply Nat.eqb_eq, length_zero_iff_nil in E. intros [= <-].
    rewrite E. split; [reflexivity|]. split; [reflexivity|].
    intros Hne. now destruct Hne.
  - destruct (transform _ _ _) as [e|Y]; cbn [bind]; [discriminate|].
    unfold frame_of_array.
    destruct (andb _ _) eqn:E12; cbn [bind ret raise]; [|discriminate].
    apply andb_true_iff in E12 as [E1 E2].
    intros [= <-]. cbn [index columns values]. split; [reflexivity|]. split.
    + intros Hnil. rewrite Hnil in E. discriminate.
    + intros _. split; [reflexivity|]. split; [now apply Nat.eqb_eq|].
      apply Forall_forall. intros row Hrow. rewrite length_map.
      rewrite forallb_forall in E2. now apply Nat.eqb_eq, E2.
Qed.

Lemma tri_nuc_table_nonempty (k : string) :
  (100 < group_count subset_col snvs_table k)%nat -> index counts <> [].
Proof.
  intros Hk E.
  apply (tri_nuc_table_index tri_nuc_idx_col subset_col snvs_table k) in Hk.
  fold counts in Hk. rewrite E in Hk. contradiction.
Qed.
End FitResult.

(** The row labels of the table [fit_sample_signatures] returns are in
    ascending order and no label occurs twice. *)
Theorem fit_sample_signatures_index_sorted
        {Row : Type} (tri_nuc_idx_col : Row -> Z) (transform : lda_transform)
        (snvs_table : list Row) (sig_prob : DataFrame Z string float)
        (subset_col : Row -> string) (sample_sig : DataFrame string string float) :
  fit_sample_signatures tri_nuc_idx_col transform snvs_table sig_prob subset_col
  = inr sample_sig ->
  StronglySorted (fun a b => String.ltb a b = true) (index sample_sig) /\
  NoDup (index sample_sig).
Proof.
  intros H. apply fit_sample_signatures_inr in H as (-> & _). split.
  - apply tri_nuc_table_index_sorted.
  - apply tri_nuc_table_index_NoDup.
Qed.

Lemma fit_sample_signatures_index_sorted_witness :
  exists sample_sig,
    fit_sample_signatures snd uniform_transform three_sample_table basis2 fst
    = inr sample_sig /\
    index sample_sig = ["P1_S1"; "P2_S1"] /\
    StronglySorted (fun a b => String.ltb a b = true) (index sample_sig).
Proof.
  eexists. split; [vm_compute; reflexivity|]. split; [reflexivity|].
  apply (fit_sample_signatures_index_sorted snd uniform_transform
           three_sample_table basis2 fst).
  vm_compute. reflexivity.
Defined.

Lemma tri_nuc_table_row_total_at
        {Row : Type} (tri_nuc_idx_col : Row -> Z)
        (snvs_table : list Row) (subset_col : Row -> string)
        (i : nat) (k : string) (row : list Z) :
  let counts := tri_nuc_table tri_nuc_idx_col snvs_table subset_col in
  nth_error (index counts) i = Some k ->
  nth_error (values counts) i = Some row ->
  row_total row = Z.of_nat (group_count subset_col snvs_table k) /\
  (100 < row_total row)%Z /\
  List.length row = List.length (columns counts) /\
  Forall (fun c => (0 <= c)%Z) row /\
  StronglySorted Z.lt (columns counts).
Proof.
  cbv zeta. intros Hk Hrow.
  assert (Hbig : (100 < group_count subset_col snvs_table k)%nat).
  { apply (tri_nuc_table_index tri_nuc_idx_col). eapply nth_error_In, Hk. }
  rewrite tri_nuc_table_values in Hrow. cbv zeta in Hrow.
  set (counts := tri_nuc_table tri_nuc_idx_col snvs_table subset_col) in *.
  rewrite nth_error_map, Hk in Hrow. cbn [option_map] in Hrow.
  injection Hrow as <-.
  match goal with |- row_total ?r = _ /\ _ =>
    assert (Htotal : row_total r
                     = Z.of_nat (group_count subset_col snvs_table k)) end.
  { rewrite <- length_filter_count, <- filter_samples_group by exact Hbig.
    apply (row_total_counts tri_nuc_idx_col
             (fun r => String.eqb (subset_col r) k)).
    - apply tri_nuc_table_columns_NoDup.
    - intros r Hr _. apply tri_nuc_table_columns. eauto. }
  split; [exact Htotal|]. split; [rewrite Htotal; lia|].
  split; [apply length_map|]. split.
  - apply Forall_forall. intros c Hc. apply in_map_iff in Hc as (x & <- & _).
    lia.
  - subst counts. unfold tri_nuc_table, astype_int, fillna, unstack. simpl.
    eapply StronglySorted_weaken;
      [|apply (unique_sorted_sorted _ _ Z.eqb_eq Z_leb_total Z_leb_trans
                 Z_leb_antisym)].
    intros a b [Hle Hne]. apply Z.leb_le in Hle. lia.
Qed.

(** In the count matrix the columns are in ascending order of context index,
    and every row has one cell per column, no negative cell, and adds up to
    the number of variants of its group, which is above 100: the reshaping
    loses no variant and counts none twice. *)
Theorem tri_nuc_table_row_totals
        {Row : Type} (tri_nuc_idx_col : Row -> Z)
        (snvs_table : list Row) (subset_col : Row -> string)
        (i : nat) (k : string) (row : list Z) :
  let counts := tri_nuc_table tri_nuc_idx_col snvs_table subset_col in
  nth_error (index counts) i = Some k ->
  nth_error (values counts) i = Some row ->
  row_total row = Z.of_nat (group_count subset_col snvs_table k) /\
  (100 < row_total row)%Z /\
  List.length row = List.length (columns counts) /\
  Forall (fun c => (0 <= c)%Z) row /\
  StronglySorted Z.lt (columns counts).
Proof.
  exact (tri_nuc_table_row_total_at tri_nuc_idx_col snvs_table subset_col
           i k row).
Qed.

Lemma tri_nuc_table_row_totals_witness :
  row_total [50%Z; 60%Z] = Z.of_nat (group_count fst three_sample_table "P2_S1").
Proof.
  apply (tri_nuc_table_row_totals snd three_sample_table fst 1 "P2_S1"
           [50%Z; 60%Z]); vm_compute; reflexivity.
Defined.

(** When some group has more than 100 variants and the inference engine
    returns weights of the right shape, the columns of the result are the
    signature columns of the basis with their first ten characters, the
    prefix [Signature ] of a signature name, cut off (a shorter name becomes
    empty), and the values are a full rectangle under the labels. *)
Theorem fit_sample_signatures_columns
        {Row : Type} (tri_nuc_idx_col : Row -> Z) (transform : lda_transform)
        (snvs_table : list Row) (sig_prob : DataFrame Z string float)
        (subset_col : Row -> string) (k : string) :
  transform_shape transform ->
  (100 < group_count subset_col snvs_table k)%nat ->
  exists sample_sig,
    fit_sample_signatures tri_nuc_idx_col transform snvs_table sig_prob subset_col
    = inr sample_sig /\
    columns sample_sig = map strip_signature (columns sig_prob) /\
    List.length (values sample_sig) = List.length (index sample_sig) /\
    Forall (fun row => List.length row = List.length (columns sample_sig))
           (values sample_sig) /\
    (forall name, strip_signature ("Signature " ++ name)%string = name) /\
    (forall name, (String.length name <= 10)%nat -> strip_signature name = "").
Proof.
  intros Hshape Hk.
  assert (exists sample_sig,
            fit_sample_signatures tri_nuc_idx_col transform snvs_table sig_prob
                                  subset_col = inr sample_sig) as (df & Hdf).
  { unfold fit_sample_signatures.
    pose proof (tri_nuc_table_shape tri_nuc_idx_col subset_col snvs_table) as Hlen.
    destruct (List.length (index _) =? 0)%nat; [eexists; reflexivity|].
    match goal with |- context [transform ?m ?X ?it] =>
      destruct (Hshape m X it) as (Y & -> & HY1 & HY2) end.
    simpl in HY2. unfold bind at 1. unfold frame_of_array.
    rewrite HY1, Hlen, Nat.eqb_refl. simpl.
    replace (forallb _ Y) with true; [eexists; reflexivity|].
    symmetry. apply forallb_forall. intros row Hrow.
    rewrite Forall_forall in HY2. apply Nat.eqb_eq. now apply HY2. }
  exists df. split; [exact Hdf|].
  destruct (fit_sample_signatures_inr _ _ _ _ _ _ Hdf) as (_ & _ & Hfull).
  destruct (Hfull (tri_nuc_table_nonempty _ _ _ k Hk)) as (H1 & H2 & H3).
  repeat (split; [assumption|]). split.
  - intros name. unfold strip_signature. rewrite length_append.
    replace (String.length "Signature " + String.length name
             - String.length "Signature ")%nat
      with (String.length name) by lia.
    apply substring_append_r.
  - intros name Hlen. unfold strip_signature.
    replace (String.length name - String.length "Signature ")%nat with 0%nat
      by (simpl; lia).
    generalize (String.length "Signature "). clear.
    induction name as [|c name IH]; intros [|n]; simpl; auto.
Qed.

Lemma fit_sample_signatures_columns_witness :
  exists sample_sig,
    fit_sample_signatures snd uniform_transform three_sample_table basis2 fst
    = inr sample_sig /\
    columns sample_sig = ["1"; "2"].
Proof.
  destruct (fit_sample_signatures_columns snd uniform_transform
              three_sample_table basis2 fst "P1_S1" uniform_transform_shape)
    as (df & Hdf & Hcols & _).
  - vm_compute. lia.
  - exists df. split; [exact Hdf|]. rewrite Hcols. reflexivity.
Defined.

(** A fault of the inference engine is not caught: when some group has
    more than 100 variants and the engine raises, [fit_sample_signatures]
    raises the same exception. *)
Theorem fit_sample_signatures_engine_error
        {Row : Type} (tri_nuc_idx_col : Row -> Z) (transform : lda_transform)
        (snvs_table : list Row) (sig_prob : DataFrame Z string float)
        (subset_col : Row -> string) (k : string) (e : exn) :
  (100 < group_count subset_col snvs_table k)%nat ->
  (forall model X max_iter, transform model X max_iter = inl e) ->
  fit_sample_signatures tri_nuc_idx_col transform snvs_table sig_prob subset_col
  = inl e.
Proof.
  intros Hk Hfail. unfold fit_sample_signatures.
  pose proof (tri_nuc_table_nonempty tri_nuc_idx_col snvs_table subset_col k Hk)
    as Hne.
  destruct (index _) as [|k' ks] eqn:E; [now destruct Hne|].
  simpl. now rewrite Hfail.
Qed.

Lemma fit_sample_signatures_engine_error_witness :
  fit_sample_signatures snd failing_transform three_sample_table basis2 fst
  = inl (LibraryError "no convergence").
Proof.
  apply (fit_sample_signatures_engine_error snd failing_transform
           three_sample_table basis2 fst "P1_S1").
  - vm_compute. lia.
  - reflexivity.
Defined.

(** ** plot_signature_heatmap on a fitted table *)

Lemma NoDup_all_equal {A : Type} (l : list A) :
  NoDup l -> (forall a b, In a l -> In b l -> a = b) -> (List.length l <= 1)%nat.
Proof.
  intros Hnd Heq. destruct l as [|a [|b l]]; simpl; try lia.
  exfalso. inversion Hnd as [|? ? Hnotin _]; subst. apply Hnotin.
  rewrite (Heq a b); simpl; auto.
Qed.

Lemma two_distinct_members {A : Type} (l : list A) (a b : A) :
  In a l -> In b l -> a <> b -> (2 <= List.length l)%nat.
Proof.
  destruct l as [|x [|y l]]; simpl; try lia; try tauto.
  intros [->|[]] [->|[]] H. now destruct H.
Qed.

(** The heat map of a fitted table is the blank figure when at most one
    group has more than 100 variants, and the clustered map of the table
    when two different groups do. *)
Theorem plot_signature_heatmap_of_fit
        {Row : Type} (tri_nuc_idx_col : Row -> Z) (transform : lda_transform)
        (snvs_table : list Row) (sig_prob : DataFrame Z string float)
        (subset_col : Row -> string) (sample_sig : DataFrame string string float) :
  fit_sample_signatures tri_nuc_idx_col transform snvs_table sig_prob subset_col
  = inr sample_sig ->
  ((forall k1 k2, (100 < group_count subset_col snvs_table k1)%nat ->
                  (100 < group_count subset_col snvs_table k2)%nat -> k1 = k2) ->
   plot_signature_heatmap sample_sig = blank_figure (8, 5)%nat) /\
  (forall k1 k2, k1 <> k2 ->
                 (100 < group_count subset_col snvs_table k1)%nat ->
                 (100 < group_count subset_col snvs_table k2)%nat ->
   plot_signature_heatmap sample_sig = clustermap sample_sig (8, 5)%nat).
Proof.
  intros Hfit. apply fit_sample_signatures_inr in Hfit as (Hidx & _).
  unfold plot_signature_heatmap. rewrite Hidx. split.
  - intros Hone. replace (_ <=? 1)%nat with true; [reflexivity|].
    symmetry. apply Nat.leb_le, NoDup_all_equal.
    + apply tri_nuc_table_index_NoDup.
    + intros a b Ha Hb. apply Hone; now apply (tri_nuc_table_index tri_nuc_idx_col).
  - intros k1 k2 Hne H1 H2. replace (_ <=? 1)%nat with false; [reflexivity|].
    symmetry. apply Nat.leb_gt.
    apply (two_distinct_members _ k1 k2);
      [now apply tri_nuc_table_index|now apply tri_nuc_table_index|exact Hne].
Qed.

Lemma plot_signature_heatmap_of_fit_witness :
  exists sample_sig,
    fit_sample_signatures snd uniform_transform three_sample_table basis2 fst
    = inr sample_sig /\
    plot_signature_heatmap sample_sig = clustermap sample_sig (8, 5)%nat.
Proof.
  eexists. split; [vm_compute; reflexivity|].
  apply (plot_signature_heatmap_of_fit snd uniform_transform
           three_sample_table basis2 fst) with (k1 := "P1_S1") (k2 := "P2_S1").
  - vm_compute. reflexivity.
  - discriminate.
  - vm_compute. lia.
  - vm_compute. lia.
Defined.

(** ** test_ancestral_descendant: the two samples and the errors *)

Lemma filter_partition_length {A : Type} (p : A -> bool) (l : list A) :
  (List.length (filter p l) + List.length (filter (fun x => negb (p x)) l)
   = List.length l)%nat.
Proof.
  induction l as [|a l IH]; simpl; [reflexivity|].
  destruct (p a); simpl; lia.
Qed.

Lemma existsb_filter_nonempty {A : Type} (p : A -> bool) (l : list A) :
  existsb p l = true -> filter p l <> [].
Proof.
  intros H E. apply existsb_exists in H as (x & Hx & Hp).
  assert (In x (filter p l)) as Hin by (apply filter_In; auto).
  rewrite E in Hin. contradiction.
Qed.

Lemma no_node0 (data : Series string float) :
  (forall e, In e data -> ~ ends_in_Node0 (fst e)) ->
  existsb (fun e => is_node0 (fst e)) data = false.
Proof.
  intros H. apply not_true_iff_false. intros Hex.
  apply existsb_exists in Hex as (e & He & Hn).
  apply is_node0_iff in Hn. exact (H e He Hn).
Qed.

Lemma all_node0 (data : Series string float) :
  (forall e, In e data -> ends_in_Node0 (fst e)) ->
  existsb (fun e => negb (is_node0 (fst e))) data = false.
Proof.
  intros H. apply not_true_iff_false. intros Hex.
  apply existsb_exists in Hex as (e & He & Hn).
  apply negb_true_iff, not_true_iff_false in Hn. apply Hn.
  now apply is_node0_iff, H.
Qed.

(** Which lookup fails: with no identifier ending in [Node0], the empty
    series included, the error is [KeyError: True]; with such identifiers and
    no other, it is [KeyError: False].  The rank test is not called. *)
Theorem test_ancestral_descendant_key_error
        (mannwhitneyu : mannwhitneyu_t) (data : Series string float) :
  ((forall e, In e data -> ~ ends_in_Node0 (fst e)) ->
   test_ancestral_descendant mannwhitneyu data = inl (KeyError "True")) /\
  ((exists e, In e data) ->
   (forall e, In e data -> ends_in_Node0 (fst e)) ->
   test_ancestral_descendant mannwhitneyu data = inl (KeyError "False")).
Proof.
  rewrite test_ancestral_descendant_eq. split.
  - intros H. now rewrite no_node0.
  - intros (e & He) H. rewrite all_node0 by exact H.
    replace (existsb _ data) with true; [reflexivity|].
    symmetry. apply existsb_exists. exists e. split; [exact He|].
    now apply is_node0_iff, H.
Qed.

(** With both classes present, the two samples handed to the rank test are
    not empty and together hold every value of the series once, and a fault
    raised by the rank test is raised by [test_ancestral_descendant]. *)
Theorem test_ancestral_descendant_samples
        (mannwhitneyu : mannwhitneyu_t) (data : Series string float) :
  (exists e, In e data /\ ends_in_Node0 (fst e)) ->
  (exists e, In e data /\ ~ ends_in_Node0 (fst e)) ->
  exists x y,
    x = map snd (filter (fun e => is_node0 (fst e)) data) /\
    y = map snd (filter (fun e => negb (is_node0 (fst e))) data) /\
    x <> [] /\ y <> [] /\
    (List.length x + List.length y = List.length data)%nat /\
    (forall r, mannwhitneyu x y = inr r ->
               test_ancestral_descendant mannwhitneyu data = inr (snd r)) /\
    (forall err, mannwhitneyu x y = inl err ->
                 test_ancestral_descendant mannwhitneyu data = inl err).
Proof.
  intros (a & Ha & Hanc) (d & Hd & Hdesc).
  assert (Ea : existsb (fun e => is_node0 (fst e)) data = true).
  { apply existsb_exists. exists a. split; [exact Ha|]. now apply is_node0_iff. }
  assert (Ed : existsb (fun e => negb (is_node0 (fst e))) data = true).
  { apply existsb_exists. exists d. split; [exact Hd|].
    apply negb_true_iff, not_true_iff_false. now rewrite is_node0_iff. }
  eexists. eexists. split; [reflexivity|]. split; [reflexivity|].
  rewrite test_ancestral_descendant_eq, Ea, Ed.
  split; [|split; [|split; [|split]]].
  - intros E. apply map_eq_nil in E. now apply existsb_filter_nonempty in Ea.
  - intros E. apply map_eq_nil in E. now apply existsb_filter_nonempty in Ed.
  - rewrite !length_map. apply filter_partition_length.
  - intros r ->. reflexivity.
  - intros err ->. reflexivity.
Qed.

Lemma test_ancestral_descendant_samples_witness :
  exists x y,
    x = [0.5%float; 0.125%float] /\ y = [0.25%float] /\
    (List.length x + List.length y = 3)%nat.
Proof.
  destruct (test_ancestral_descendant_samples toy_mannwhitneyu
              [("P1_Node0", 0.5%float); ("P1_Node1", 0.25%float);
               ("P2_Node0", 0.125%float)])
    as (x & y & Hx & Hy & _ & _ & Hlen & _).
  - exists ("P1_Node0", 0.5%float). split; [simpl; auto|].
    apply is_node0_iff. reflexivity.
  - exists ("P1_Node1", 0.25%float). split; [simpl; auto|].
    intros H. apply is_node0_iff in H. discriminate H.
  - exists x, y. split; [exact Hx|]. split; [exact Hy|]. exact Hlen.
Defined.

(** ** plot_signature_boxplots: errors and the order of the panels *)

Lemma plot_signature_boxplots_raises
      (mannwhitneyu : mannwhitneyu_t)
      (sample_sig : DataFrame string string float)
      (pvalue_threshold : option float) :
  index sample_sig <> [] -> columns sample_sig <> [] ->
  (forall l, In l (index sample_sig) -> ~ ends_in_Node0 l) \/
  (forall l, In l (index sample_sig) -> ends_in_Node0 l) ->
  exists key,
    plot_signature_boxplots mannwhitneyu sample_sig pvalue_threshold
    = inl (KeyError key).
Proof.
  intros Hi Hc Hclass. unfold plot_signature_boxplots, apply_columns.
  destruct (index sample_sig) as [|l0 idx] eqn:Ei; [now destruct Hi|].
  destruct (columns sample_sig) as [|c0 cols] eqn:Ec; [now destruct Hc|].
  cbn [List.length Nat.eqb orb seq mapM].
  rewrite test_ancestral_descendant_eq.
  set (col := column 0%float sample_sig 0).
  assert (Hlab : forall e, In e col -> In (fst e) (l0 :: idx)).
  { intros [l v] He. unfold col, column in He. rewrite Ei in He.
    apply in_combine_l in He. exact He. }
  destruct Hclass as [H|H].
  - rewrite no_node0 by (intros e He; apply H, Hlab, He).
    eexists. reflexivity.
  - rewrite all_node0 by (intros e He; apply H, Hlab, He).
    destruct (existsb _ col); eexists; reflexivity.
Qed.

(** On a table with a row and a signature column in which the row labels are
    all of one class, [plot_signature_boxplots] raises the [KeyError] of the
    rank test on its first column and draws nothing. *)
Theorem plot_signature_boxplots_one_class
        (mannwhitneyu : mannwhitneyu_t)
        (sample_sig : DataFrame string string float)
        (pvalue_threshold : option float) :
  index sample_sig <> [] -> columns sample_sig <> [] ->
  (forall l, In l (index sample_sig) -> ~ ends_in_Node0 l) \/
  (forall l, In l (index sample_sig) -> ends_in_Node0 l) ->
  exists key,
    plot_signature_boxplots mannwhitneyu sample_sig pvalue_threshold
    = inl (KeyError key).
Proof. apply plot_signature_boxplots_raises. Qed.

Lemma plot_signature_boxplots_one_class_witness :
  exists key,
    plot_signature_boxplots toy_mannwhitneyu descendants_only None
    = inl (KeyError key).
Proof.
  apply (plot_signature_boxplots_one_class toy_mannwhitneyu descendants_only None).
  - discriminate.
  - discriminate.
  - left. intros l [<-|[<-|[]]] H; apply is_node0_iff in H; discriminate H.
Defined.

Lemma mapM_labelled {A B C : Type} (f : A -> result B) (g : A -> C)
      (xs : list A) (s : list (C * B)) :
  mapM (fun x => bind (f x) (fun p => ret (g x, p))) xs = inr s ->
  exists ps, mapM f xs = inr ps /\ s = combine (map g xs) ps /\
             List.length ps = List.length xs.
Proof.
  revert s. induction xs as [|x xs IH]; simpl; intros s H.
  - injection H as <-. exists []. auto.
  - destruct (f x) as [e|p]; simpl in H; [discriminate|].
    destruct (mapM _ xs) as [e|s'] eqn:E; simpl in H; [discriminate|].
    injection H as <-. destruct (IH s' eq_refl) as (ps & -> & -> & Hlen).
    exists (p :: ps). simpl. auto.
Qed.

Lemma map_nth_seq {A : Type} (d : A) (l : list A) :
  map (fun j => nth j l d) (seq 0 (List.length l)) = l.
Proof.
  induction l as [|a l IH]; simpl; [reflexivity|].
  f_equal. rewrite <- seq_shift, map_map. exact IH.
Qed.

Lemma map_filter_commute {A B : Type} (f : A -> B) (p : B -> bool) (l : list A) :
  map f (filter (fun x => p (f x)) l) = filter p (map f l).
Proof.
  induction l as [|a l IH]; simpl; [reflexivity|].
  destruct (p (f a)); simpl; now rewrite IH.
Qed.

Lemma filter_eq_singleton (cols : list string) (l : string) :
  NoDup cols -> In l cols -> filter (fun c => String.eqb c l) cols = [l].
Proof.
  induction 1 as [|c cols Hnotin _ IH]; simpl; [contradiction|].
  intros [->|Hin].
  - rewrite String.eqb_refl. f_equal.
    apply filter_none, not_true_iff_false. intros Hex.
    apply existsb_exists in Hex as (x & Hx & E).
    apply String.eqb_eq in E. now subst.
  - destruct (String.eqb_spec c l) as [->|_]; [contradiction|]. now apply IH.
Qed.

Lemma Forall2_nth_error {A B : Type} (P : A -> B -> Prop) (xs : list A)
      (ys : list B) (j : nat) (x : A) (y : B) :
  Forall2 P xs ys -> nth_error xs j = Some x -> nth_error ys j = Some y -> P x y.
Proof.
  intros H. revert j. induction H as [|a b xs ys Hab _ IH]; intros [|j]; simpl;
    try discriminate.
  - now intros [= <-] [= <-].
  - apply IH.
Qed.

Lemma loc_columns_distinct (sample_sig data : DataFrame string string float)
      (labels : list string) :
  NoDup (columns sample_sig) ->
  loc_columns sample_sig labels = inr data ->
  columns data = labels /\ index data = index sample_sig.
Proof.
  intros Hnd. unfold loc_columns.
  destruct (forallb _ labels) eqn:E; [|discriminate].
  intros [= <-]. simpl. split; [|reflexivity].
  rewrite forallb_forall in E.
  induction labels as [|l labels IH]; simpl; [reflexivity|].
  rewrite map_app, IH by (intros; apply E; simpl; auto).
  rewrite (map_filter_commute (fun j => nth j (columns sample_sig) "")
             (fun c => String.eqb c l)).
  rewrite map_nth_seq, filter_eq_singleton; [reflexivity|exact Hnd|].
  specialize (E l (or_introl eq_refl)).
  apply existsb_exists in E as (c & Hc & Ecl).
  apply String.eqb_eq in Ecl. now subst.
Qed.

(** On a table with distinct signature labels on which every rank test
    returns, the table kept for drawing has the rows of the input and, as
    columns, the labels whose p-value is below the threshold, each once and
    in the order they have in the input. *)
Theorem plot_signature_boxplots_order
        (mannwhitneyu : mannwhitneyu_t)
        (sample_sig : DataFrame string string float)
        (pvalue_threshold : option float) :
  NoDup (columns sample_sig) ->
  columns sample_sig <> [] ->
  (forall j, (j < List.length (columns sample_sig))%nat ->
     exists p, test_ancestral_descendant mannwhitneyu
                 (column 0%float sample_sig j) = inr p) ->
  exists data pvalues,
    plot_signature_boxplots mannwhitneyu sample_sig pvalue_threshold = inr data /\
    List.length pvalues = List.length (columns sample_sig) /\
    (forall j p, nth_error pvalues j = Some p ->
       test_ancestral_descendant mannwhitneyu (column 0%float sample_sig j)
       = inr p) /\
    columns data
    = map fst (filter (fun lp => ltb (snd lp) (threshold_of pvalue_threshold))
                      (combine (columns sample_sig) pvalues)) /\
    index data = index sample_sig.
Proof.
  intros Hnd Hcols Hall.
  destruct (plot_signature_boxplots_total mannwhitneyu sample_sig
              pvalue_threshold Hcols Hall) as (data & Hdata).
  exists data. revert Hdata. unfold plot_signature_boxplots.
  destruct (apply_columns _ sample_sig) as [e|[s|table]] eqn:E; simpl;
    [discriminate| |].
  - intros Hloc. revert E. unfold apply_columns.
    destruct (_ || _); [discriminate|].
    destruct (mapM _ _) as [e|s'] eqn:Es; simpl; [discriminate|].
    intros [= <-]. apply mapM_labelled in Es as (pv & Hpv & -> & Hlen).
    rewrite map_nth_seq in Hloc |- *. rewrite length_seq in Hlen.
    exists pv. split; [exact Hloc|]. split; [exact Hlen|]. split.
    + intros j p Hj. apply mapM_inr in Hpv.
      apply (Forall2_nth_error _ _ _ j j p Hpv); [|exact Hj].
      rewrite (nth_error_nth' _ 0%nat), seq_nth; [reflexivity| |];
        try rewrite length_seq; rewrite <- Hlen; apply nth_error_Some;
        congruence.
    + apply (loc_columns_distinct _ _ _ Hnd Hloc).
  - exfalso. destruct (apply_columns_table _ _ _ E) as (_ & _ & Hnone).
    destruct (columns sample_sig) as [|c cols] eqn:Ec; [now apply Hcols|].
    destruct (Hall 0%nat) as (p & Hp); [simpl; lia|].
    apply (Hnone 0%nat c p); [reflexivity|exact Hp].
Qed.

Lemma plot_signature_boxplots_order_witness :
  exists data,
    plot_signature_boxplots toy_mannwhitneyu node_sig3 (Some 0.75%float)
    = inr data /\
    columns data = ["1"; "2"] /\ index data = index node_sig3.
Proof.
  destruct (plot_signature_boxplots_order toy_mannwhitneyu node_sig3
              (Some 0.75%float))
    as (data & pv & Hdata & _ & _ & _ & Hidx).
  - repeat constructor; simpl; intuition discriminate.
  - discriminate.
  - intros [|[|j]] Hj; [eexists; reflexivity|eexists; reflexivity|].
    simpl in Hj. lia.
  - exists data. split; [exact Hdata|]. split; [|exact Hidx].
    vm_compute in Hdata. now injection Hdata as <-.
Defined.

(** ** load_signature_probabilities: parsing the substitution type *)

Lemma split_chars_none (sep : ascii) (cs : list ascii) :
  ~ In sep cs -> split_chars sep cs = (cs, []).
Proof.
  induction cs as [|c cs IH]; simpl; intros H; [reflexivity|].
  rewrite IH by tauto.
  destruct (Ascii.eqb_spec c sep) as [->|_]; [|reflexivity].
  destruct H. now left.
Qed.

Lemma split_chars_first (sep : ascii) (xs rest : list ascii) :
  ~ In sep xs ->
  split_chars sep (xs ++ sep :: rest)
  = (xs, fst (split_chars sep rest) :: snd (split_chars sep rest)).
Proof.
  induction xs as [|c xs IH]; simpl; intros H.
  - rewrite Ascii.eqb_refl. now destruct (split_chars sep rest).
  - rewrite IH by tauto.
    destruct (Ascii.eqb_spec c sep) as [->|_]; [|reflexivity].
    destruct H. now left.
Qed.

Lemma split_none (a : string) (sep : ascii) :
  ~ In sep (chars a) -> split a sep = [a].
Proof.
  intros H. unfold split. rewrite split_chars_none by exact H.
  simpl. now rewrite str_chars.
Qed.

Lemma split_two (r al : string) (sep : ascii) :
  ~ In sep (chars r) -> ~ In sep (chars al) ->
  split (r ++ String sep al)%string sep = [r; al].
Proof.
  intros Hr Hal. unfold split. rewrite chars_append. simpl.
  rewrite split_chars_first, split_chars_none by assumption.
  simpl. now rewrite !str_chars.
Qed.

Lemma mapM_raises {A B : Type} (f : A -> result B) (xs : list A) (e : exn) :
  (forall x, In x xs -> f x = inl e \/ exists y, f x = inr y) ->
  (exists x, In x xs /\ f x = inl e) ->
  mapM f xs = inl e.
Proof.
  induction xs as [|x xs IH]; simpl; intros Hall (x0 & Hin & Hx0);
    [contradiction|].
  destruct (Hall x (or_introl eq_refl)) as [->|(y & Hy)]; [reflexivity|].
  rewrite Hy. simpl. rewrite IH; [reflexivity|intros; apply Hall; auto|].
  destruct Hin as [->|Hin]; [congruence|eauto].
Qed.

(** A substitution type without [>] makes [load_signature_probabilities]
    raise [IndexError]: the split has one piece and the second is asked
    for. *)
Theorem load_signature_probabilities_no_separator
        (file : signature_file) (a : string) :
  In a (Substitution_Type file) -> ~ In ">"%char (chars a) ->
  load_signature_probabilities file
  = inl (IndexError "list index out of range").
Proof.
  intros Hin Hno. unfold load_signature_probabilities.
  rewrite (mapM_pure _ (fun a => nth 0 (split a ">") "")).
  2:{ intros x _. apply getitem_nth, split_length. }
  cbn [bind]. rewrite (mapM_raises _ _ (IndexError "list index out of range")).
  - reflexivity.
  - intros x _. unfold getitem.
    destruct (nth_error (split x ">") 1); [right; eexists|left]; reflexivity.
  - exists a. split; [exact Hin|]. now rewrite split_none.
Qed.

Lemma load_signature_probabilities_no_separator_witness :
  load_signature_probabilities (mkSignatureFile ["C>A"; "CT"] ["ACA"; "ACA"] [])
  = inl (IndexError "list index out of range").
Proof.
  apply (load_signature_probabilities_no_separator _ "CT").
  - simpl. auto.
  - simpl. intros [H|[H|[]]]; discriminate H.
Defined.

Section LookupRows.
Variable file : signature_file.

Let n : nat := List.length (Trinucleotide file).
Let sig1 : list sig_entry :=
  map (fun r => mkSigEntry (fst (fst (fst r))) (snd (fst (fst r)))
                           (snd (fst r)) (snd r))
      (combine (combine (combine (map Z.of_nat (seq 0 n))
                 (map (fun a => nth 0 (split a ">") "") (Substitution_Type file)))
                 (map (fun a => nth 1 (split a ">") "") (Substitution_Type file)))
               (Trinucleotide file)).

Lemma sig1_row (i : nat) (a c : string) :
  nth_error (Substitution_Type file) i = Some a ->
  nth_error (Trinucleotide file) i = Some c ->
  nth_error sig1 i
  = Some (mkSigEntry (Z.of_nat i) (nth 0 (split a ">") "")
                     (nth 1 (split a ">") "") c).
Proof.
  intros Ha Hc. unfold sig1.
  assert (Hi : (i < n)%nat) by (apply nth_error_Some; unfold n; congruence).
  change (mkSigEntry (Z.of_nat i) (nth 0 (split a ">") "")
                     (nth 1 (split a ">") "") c)
    with ((fun r : Z * string * string * string =>
             mkSigEntry (fst (fst (fst r))) (snd (fst (fst r)))
                        (snd (fst r)) (snd r))
            (Z.of_nat i, nth 0 (split a ">") "", nth 1 (split a ">") "", c)).
  apply map_nth_error.
  repeat apply nth_error_combine.
  - apply map_nth_error.
    rewrite (nth_error_nth' _ 0%nat) by (rewrite length_seq; lia).
    now rewrite seq_nth.
  - exact (map_nth_error (fun a => nth 0 (split a ">") "") i _ Ha).
  - exact (map_nth_error (fun a => nth 1 (split a ">") "") i _ Ha).
  - exact Hc.
Qed.
End LookupRows.

(** A row of the reference table whose substitution type reads [r>a], with
    no further [>], gives the lookup two rows with the context index of the
    row: its (ref, alt, context) as written, and the reverse complement of
    each of the three. *)
Theorem load_signature_probabilities_row
        (file : signature_file) (i : nat) (r a c : string) :
  List.length (Substitution_Type file) = List.length (Trinucleotide file) ->
  substitutions_split file = true ->
  nth_error (Substitution_Type file) i = Some (r ++ ">" ++ a)%string ->
  nth_error (Trinucleotide file) i = Some c ->
  ~ In ">"%char (chars r) -> ~ In ">"%char (chars a) ->
  exists sigs sig_prob,
    load_signature_probabilities file = inr (sigs, sig_prob) /\
    nth_error sigs i = Some (mkSigEntry (Z.of_nat i) r a c) /\
    nth_error sigs (List.length (Trinucleotide file) + i)
    = Some (mkSigEntry (Z.of_nat i) (reverse_complement r)
                       (reverse_complement a) (reverse_complement c)).
Proof.
  intros Hrows Hsplit Ha Hc Hr Hal.
  destruct (load_signature_probabilities_sigs file Hsplit) as (sig_prob & Hload).
  pose proof (sig1_length file Hrows) as Hlen.
  pose proof (sig1_row file i _ c Ha Hc) as Hrow.
  cbv zeta in *. change (">" ++ a)%string with (String ">" a) in Hrow.
  rewrite split_two in Hrow by assumption. simpl in Hrow.
  assert (Hi : (i < List.length (Trinucleotide file))%nat)
    by (apply nth_error_Some; congruence).
  eexists. exists sig_prob. split; [exact Hload|]. split.
  - rewrite nth_error_app1 by (rewrite Hlen; exact Hi). exact Hrow.
  - rewrite nth_error_app2 by (rewrite Hlen; lia).
    rewrite Hlen. replace (_ + i - _)%nat with i by lia.
    now rewrite (map_nth_error _ _ _ Hrow).
Qed.

Lemma load_signature_probabilities_row_witness :
  exists sigs sig_prob,
    load_signature_probabilities two_row_file = inr (sigs, sig_prob) /\
    nth_error sigs 1 = Some (mkSigEntry 1 "T" "G" "CTG") /\
    nth_error sigs 3 = Some (mkSigEntry 1 "A" "C" "CAG").
Proof.
  apply (load_signature_probabilities_row two_row_file 1 "T" "G" "CTG");
    try reflexivity.
  - simpl. intros [H|[]]. discriminate H.
  - simpl. intros [H|[]]. discriminate H.
Defined.

(** ** The context index of a variant *)

Lemma reverse_complement_eqb (a b : string) :
  String.eqb (reverse_complement a) (reverse_complement b) = String.eqb a b.
Proof.
  destruct (String.eqb_spec a b) as [->|Hne].
  - apply String.eqb_refl.
  - apply String.eqb_neq. intros E. apply Hne.
    apply (f_equal reverse_complement) in E.
    now rewrite !reverse_complement_involutive_all in E.
Qed.

Lemma reverse_complement_entry_involutive (e : sig_entry) :
  reverse_complement_entry (reverse_complement_entry e) = e.
Proof.
  destruct e. unfold reverse_complement_entry. simpl.
  now rewrite !reverse_complement_involutive_all.
Qed.

Lemma matches_reverse_complement (r : snv_row) (e : sig_entry) :
  matches_entry (reverse_complement_snv r) (reverse_complement_entry e)
  = matches_entry r e.
Proof.
  unfold matches_entry. simpl. rewrite !reverse_complement_eqb.
  destruct (snv_context r); simpl; [|reflexivity].
  now rewrite reverse_complement_eqb.
Qed.

Lemma load_signature_probabilities_inv (file : signature_file)
      (sigs : list sig_entry) (sig_prob : DataFrame Z string float) :
  load_signature_probabilities file = inr (sigs, sig_prob) ->
  exists sig1, sigs = sig1 ++ map reverse_complement_entry sig1.
Proof.
  unfold load_signature_probabilities.
  destruct (mapM _ _) as [e|refs]; cbn [bind]; [discriminate|].
  destruct (mapM _ _) as [e|alts]; cbn [bind ret]; [discriminate|].
  intros [= <- _]. eexists. reflexivity.
Qed.

Lemma in_lookup_reverse_complement (sig1 : list sig_entry) (e : sig_entry) :
  In e (sig1 ++ map reverse_complement_entry sig1) ->
  In (reverse_complement_entry e) (sig1 ++ map reverse_complement_entry sig1).
Proof.
  rewrite !in_app_iff. intros [H|H].
  - right. now apply in_map.
  - left. apply in_map_iff in H as (x & <- & Hx).
    now rewrite reverse_complement_entry_involutive.
Qed.

Lemma in_merge_sigs (snvs_table : list snv_row) (sigs : list sig_entry)
      (r : snv_row) (i : Z) :
  In (r, i) (merge_sigs snvs_table sigs) <->
  In r snvs_table /\
  exists e, In e sigs /\ matches_entry r e = true /\ tri_nuc_idx e = i.
Proof.
  unfold merge_sigs. rewrite in_flat_map. split.
  - intros (r' & Hr' & Hin). apply in_map_iff in Hin as (e & [= <- <-] & He).
    apply filter_In in He as [He Hm]. eauto.
  - intros (Hr & e & He & Hm & <-). exists r. split; [exact Hr|].
    apply in_map_iff. exists e. split; [reflexivity|]. now apply filter_In.
Qed.

Lemma in_cohort_snvs (snvs_table : list snv_row) (sigs : list sig_entry)
      (r : snv_row) (i : Z) :
  In (r, i) (cohort_snvs snvs_table sigs) <->
  In r snvs_table /\ snv_context r <> None /\ (0 < snv_alt_counts r)%Z /\
  exists e, In e sigs /\ matches_entry r e = true /\ tri_nuc_idx e = i.
Proof.
  unfold cohort_snvs. rewrite filter_In, in_merge_sigs, filter_In. simpl.
  rewrite Z.ltb_lt. unfold notnull.
  destruct (snv_context r); split; intros H; decompose [and] H;
    repeat split; auto; discriminate.
Qed.

(** A variant and the same variant written on the opposite strand get the
    same context index from the lookup [load_signature_probabilities]
    builds. *)
Theorem cohort_snvs_strand_symmetric
        (file : signature_file) (sigs : list sig_entry)
        (sig_prob : DataFrame Z string float)
        (snvs_table : list snv_row) (r : snv_row) (i : Z) :
  load_signature_probabilities file = inr (sigs, sig_prob) ->
  In (r, i) (cohort_snvs snvs_table sigs) ->
  In (reverse_complement_snv r, i)
     (cohort_snvs (map reverse_complement_snv snvs_table) sigs).
Proof.
  intros Hload Hin. apply load_signature_probabilities_inv in Hload as (sig1 & ->).
  apply in_cohort_snvs in Hin as (Hr & Hctx & Hcount & e & He & Hm & Hi).
  apply in_cohort_snvs. split; [now apply in_map|]. split.
  - simpl. destruct (snv_context r); [discriminate|now destruct Hctx].
  - split; [exact Hcount|]. exists (reverse_complement_entry e).
    split; [now apply in_lookup_reverse_complement|].
    split; [now rewrite matches_reverse_complement|exact Hi].
Qed.

Lemma cohort_snvs_strand_symmetric_witness :
  exists sigs sig_prob,
    load_signature_probabilities two_row_file = inr (sigs, sig_prob) /\
    In (mkSnv "2" 250 "T" "G" (Some "CTG") 5 "P1" "S1", 1%Z)
       (cohort_snvs (map reverse_complement_snv cohort_table) sigs).
Proof.
  eexists. eexists. split; [vm_compute; reflexivity|].
  eapply (cohort_snvs_strand_symmetric two_row_file _ _ cohort_table
            (mkSnv "2" 250 "A" "C" (Some "CAG") 5 "P1" "S1") 1%Z).
  - vm_compute. reflexivity.
  - vm_compute. auto.
Defined.

Lemma NoDup_distinctb {A : Type} (eqb : A -> A -> bool) (l : list A) :
  (forall x y, eqb x y = true -> x = y) -> NoDup l -> distinctb eqb l = true.
Proof.
  intros Heq. induction 1 as [|x l Hnotin _ IH]; simpl; [reflexivity|].
  rewrite IH, andb_true_r. apply negb_true_iff, not_true_iff_false.
  intros Hex. apply existsb_exists in Hex as (y & Hy & E).
  apply Heq in E. now subst.
Qed.

Lemma triple_eqb_eq (x y : string * string * string) :
  triple_eqb x y = true -> x = y.
Proof.
  destruct x as [[a b] c], y as [[a' b'] c']. unfold triple_eqb. simpl.
  rewrite !andb_true_iff, !String.eqb_eq. intros [[-> ->] ->]. reflexivity.
Qed.

Lemma NoDup_append {A : Type} (l1 l2 : list A) :
  NoDup l1 -> NoDup l2 -> (forall x, In x l1 -> ~ In x l2) -> NoDup (l1 ++ l2).
Proof.
  induction 1 as [|x l1 Hnotin _ IH]; simpl; intros H2 Hdisj; [exact H2|].
  constructor.
  - rewrite in_app_iff. intros [H|H]; [contradiction|].
    apply (Hdisj x); auto.
  - apply IH; [exact H2|]. intros y Hy. apply Hdisj. auto.
Qed.

Lemma NoDup_map_injective {A B : Type} (f : A -> B) (l : list A) :
  (forall x y, In x l -> In y l -> f x = f y -> x = y) ->
  NoDup l -> NoDup (map f l).
Proof.
  intros Hinj. induction 1 as [|x l Hnotin _ IH]; simpl; constructor.
  - intros Hin. apply in_map_iff in Hin as (y & E & Hy).
    rewrite (Hinj x y) in Hnotin; simpl; auto.
  - apply IH. intros a b Ha Hb. apply Hinj; simpl; auto.
Qed.

(** A lookup made of rows with distinct triples and pyrimidine reference
    bases, followed by their reverse complements, lists no triple twice. *)
Lemma lookup_triples_distinct (sig1 : list sig_entry) :
  distinct_triples sig1 = true -> pyrimidine_refs sig1 = true ->
  distinct_triples (sig1 ++ map reverse_complement_entry sig1) = true.
Proof.
  intros Hd Hp. unfold distinct_triples in *.
  apply (distinctb_NoDup _ _ triple_eqb_refl) in Hd.
  unfold pyrimidine_refs in Hp. rewrite forallb_forall in Hp.
  apply (NoDup_distinctb _ _ triple_eqb_eq).
  rewrite map_app. apply NoDup_append.
  - exact Hd.
  - rewrite map_map.
    assert (Hnd1 : NoDup sig1) by (eapply NoDup_map_inv, Hd).
    apply NoDup_map_injective; [|exact Hnd1].
    intros a b Ha Hb E. apply triple_reverse_complement_inj in E.
    exact (NoDup_map_eq triple sig1 a b Hd Ha Hb E).
  - intros t Ht1 Ht2.
    apply in_map_iff in Ht1 as (a & <- & Ha).
    apply in_map_iff in Ht2 as (x & E & Hx).
    apply in_map_iff in Hx as (b & <- & Hb).
    exact (pyrimidine_not_complement a b (Hp _ Ha) (Hp _ Hb) (eq_sym E)).
Qed.

(** Under the conditions on the reference table (no triple listed twice,
    every reference base C or T) the lookup that
    [load_signature_probabilities] builds lists every triple once. *)
Theorem context_lookup_distinct (file : signature_file) :
  List.length (Substitution_Type file) = List.length (Trinucleotide file) ->
  substitutions_split file = true ->
  exists sigs sig_prob,
    load_signature_probabilities file = inr (sigs, sig_prob) /\
    (distinct_triples (firstn (List.length (Trinucleotide file)) sigs) = true ->
     pyrimidine_refs (firstn (List.length (Trinucleotide file)) sigs) = true ->
     distinct_triples sigs = true).
Proof.
  intros Hrows Hsplit.
  destruct (load_signature_probabilities_sigs file Hsplit) as (sig_prob & Hload).
  pose proof (sig1_length file Hrows) as Hlen. cbv zeta in *.
  set (sig1 := map _ (combine _ (Trinucleotide file))) in *.
  exists (sig1 ++ map reverse_complement_entry sig1), sig_prob.
  split; [exact Hload|].
  rewrite <- Hlen at 1 2. rewrite firstn_app, Nat.sub_diag, firstn_all.
  simpl. rewrite app_nil_r. apply lookup_triples_distinct.
Qed.

Lemma context_lookup_distinct_witness :
  exists sigs sig_prob,
    load_signature_probabilities (cosmic_file []) = inr (sigs, sig_prob) /\
    distinct_triples sigs = true.
Proof.
  destruct (context_lookup_distinct (cosmic_file []))
    as (sigs & sig_prob & Hload & Hd); [reflexivity|reflexivity|].
  exists sigs, sig_prob. split; [exact Hload|].
  vm_compute in Hload. injection Hload as <- _.
  apply Hd; vm_compute; reflexivity.
Defined.

Lemma filter_at_most_one {A B : Type} (f : A -> B) (p : A -> bool) (l : list A) :
  NoDup (map f l) ->
  (forall a b, p a = true -> p b = true -> f a = f b) ->
  (List.length (filter p l) <= 1)%nat.
Proof.
  intros Hnd Hp. apply NoDup_all_equal.
  - apply NoDup_filter. eapply NoDup_map_inv, Hnd.
  - intros a b Ha Hb. apply filter_In in Ha as [Ha Hpa], Hb as [Hb Hpb].
    apply (NoDup_map_eq f l a b Hnd Ha Hb). now apply Hp.
Qed.

Lemma flat_map_length_le {A B : Type} (f : A -> list B) (l : list A) :
  (forall x, (List.length (f x) <= 1)%nat) ->
  (List.length (flat_map f l) <= List.length l)%nat.
Proof.
  intros H. induction l as [|a l IH]; simpl; [lia|].
  rewrite length_app. specialize (H a). lia.
Qed.

Lemma filter_length_le' {A : Type} (p : A -> bool) (l : list A) :
  (List.length (filter p l) <= List.length l)%nat.
Proof.
  induction l as [|a l IH]; simpl; [lia|]. destruct (p a); simpl; lia.
Qed.

Lemma matches_entry_triple (r : snv_row) (a b : sig_entry) :
  matches_entry r a = true -> matches_entry r b = true -> triple a = triple b.
Proof.
  unfold matches_entry, triple.
  destruct (snv_context r) as [c|]; rewrite !andb_true_iff, ?String.eqb_eq;
    [|intros [_ H]; discriminate H].
  intros [[<- <-] <-] [[<- <-] <-]. reflexivity.
Qed.

(** With a lookup that lists no triple twice, the join gives a variant at
    most one context index: the table with indices has no more rows than the
    caller's table, so no variant is counted twice. *)
Theorem cohort_snvs_at_most_once
        (snvs_table : list snv_row) (sigs : list sig_entry) :
  distinct_triples sigs = true ->
  (List.length (cohort_snvs snvs_table sigs) <= List.length snvs_table)%nat /\
  (forall r i j, In (r, i) (cohort_snvs snvs_table sigs) ->
                 In (r, j) (cohort_snvs snvs_table sigs) -> i = j).
Proof.
  intros Hd. apply (distinctb_NoDup _ _ triple_eqb_refl) in Hd. split.
  - unfold cohort_snvs, merge_sigs.
    eapply Nat.le_trans; [apply filter_length_le'|].
    eapply Nat.le_trans; [|apply (filter_length_le' (fun r => notnull (snv_context r)))].
    apply flat_map_length_le. intros r. rewrite length_map.
    apply (filter_at_most_one triple); [exact Hd|].
    apply matches_entry_triple.
  - intros r i j Hi Hj.
    apply in_cohort_snvs in Hi as (_ & _ & _ & a & Ha & Hma & <-).
    apply in_cohort_snvs in Hj as (_ & _ & _ & b & Hb & Hmb & <-).
    now rewrite (NoDup_map_eq triple sigs a b Hd Ha Hb
                   (matches_entry_triple r a b Hma Hmb)).
Qed.

Lemma cohort_snvs_at_most_once_witness :
  exists sigs sig_prob,
    load_signature_probabilities two_row_file = inr (sigs, sig_prob) /\
    (List.length (cohort_snvs cohort_table sigs) <= 5)%nat.
Proof.
  eexists. eexists. split; [vm_compute; reflexivity|].
  apply (cohort_snvs_at_most_once cohort_table). vm_compute. reflexivity.
Defined.

(** ** Grouping keys *)

Lemma string_append_assoc (a b c : string) :
  ((a ++ b) ++ c = a ++ (b ++ c))%string.
Proof.
  induction a as [|x a IH]; simpl; [reflexivity|]. now rewrite IH.
Qed.

Lemma append_separator_injective (sep : ascii) (p1 p2 s1 s2 : string) :
  ~ In sep (chars p1) -> ~ In sep (chars p2) ->
  (p1 ++ String sep s1 = p2 ++ String sep s2)%string ->
  p1 = p2 /\ s1 = s2.
Proof.
  revert p2. induction p1 as [|c p1 IH]; intros [|d p2]; simpl; intros H1 H2 E.
  - now injection E as <-.
  - injection E as <- _. destruct H2. now left.
  - injection E as -> _. destruct H1. now left.
  - injection E as <- E. destruct (IH p2) as [<- <-]; auto.
Qed.

(** When patient identifiers contain no underscore, two rows with the same
    [patient_sample_id] have the same patient and the same sample: the key
    keeps the groups of different samples apart. *)
Theorem patient_sample_id_injective (x y : snv_row * Z) :
  ~ In "_"%char (chars (snv_patient_id (fst x))) ->
  ~ In "_"%char (chars (snv_patient_id (fst y))) ->
  patient_sample_id x = patient_sample_id y ->
  snv_patient_id (fst x) = snv_patient_id (fst y) /\
  snv_sample_id (fst x) = snv_sample_id (fst y).
Proof.
  unfold patient_sample_id. intros Hx Hy E.
  exact (append_separator_injective "_" _ _ _ _ Hx Hy E).
Qed.

Lemma patient_sample_id_injective_witness :
  snv_patient_id (mkSnv "1" 100 "C" "A" (Some "ACA") 7 "P1" "S1") = "P1" /\
  snv_sample_id (mkSnv "1" 100 "C" "A" (Some "ACA") 7 "P1" "S1") = "S1".
Proof.
  apply (patient_sample_id_injective
           (mkSnv "1" 100 "C" "A" (Some "ACA") 7 "P1" "S1", 0%Z)
           (mkSnv "2" 250 "A" "C" (Some "CAG") 5 "P1" "S1", 1%Z)).
  - simpl. intros [H|[H|[]]]; discriminate H.
  - simpl. intros [H|[H|[]]]; discriminate H.
  - reflexivity.
Defined.

(** With an underscore in a patient identifier the key can merge two
    different samples. *)
Lemma patient_sample_id_collision :
  patient_sample_id (mkSnv "1" 100 "C" "A" None 1 "P_1" "S", 0%Z)
  = patient_sample_id (mkSnv "1" 100 "C" "A" None 1 "P" "1_S", 0%Z).
Proof. reflexivity. Qed.

Definition digit_or_minus (c : ascii) : bool :=
  existsb (Ascii.eqb c) (chars "-0123456789").

Lemma string_of_uint_digits (d : Decimal.uint) :
  forallb digit_or_minus (chars (NilEmpty.string_of_uint d)) = true.
Proof. induction d; simpl; auto. Qed.

Lemma string_of_uint_zero (d : Decimal.uint) :
  NilZero.string_of_uint d = "0" -> d = Decimal.Nil \/ d = Decimal.zero.
Proof.
  destruct d as [|d|d|d|d|d|d|d|d|d|d]; simpl; try discriminate; auto.
  destruct d; simpl; try discriminate. auto.
Qed.

Lemma string_of_uint_nonnil (d : Decimal.uint) :
  d <> Decimal.Nil ->
  NilZero.string_of_uint d = NilEmpty.string_of_uint d /\
  NilEmpty.string_of_uint d <> "".
Proof.
  destruct d; intros H; try (now destruct H); split; try reflexivity;
    simpl; discriminate.
Qed.

Lemma str_int_chars (n : Z) :
  forallb digit_or_minus (chars (str_int n)) = true /\ str_int n <> "".
Proof.
  unfold str_int, NilZero.string_of_int. destruct n as [|p|p]; simpl Z.to_int.
  - split; [reflexivity|discriminate].
  - destruct (string_of_uint_nonnil _ (Unsigned.to_uint_nonnil p)) as [-> Hne].
    split; [apply string_of_uint_digits|exact Hne].
  - destruct (string_of_uint_nonnil _ (Unsigned.to_uint_nonnil p)) as [-> Hne].
    split; [|discriminate].
    cbn [chars list_ascii_of_string forallb]. apply string_of_uint_digits.
Qed.

Lemma str_int_zero (n : Z) : str_int n = "0" <-> n = 0%Z.
Proof.
  split; [|now intros ->].
  unfold str_int, NilZero.string_of_int. destruct n as [|p|p]; simpl.
  - reflexivity.
  - intros H. apply string_of_uint_zero in H as [H|H].
    + now destruct (Unsigned.to_uint_nonnil p).
    + now destruct (Unsigned.to_uint_nonzero p).
  - discriminate.
Qed.

Lemma rev_chars_node0 (p s : string) :
  forallb digit_or_minus (chars s) = true -> s <> "" ->
  is_node0 (p ++ "_Node" ++ s)%string = true -> s = "0".
Proof.
  intros Hdig Hne H. apply is_node0_iff in H as (q & E).
  apply (f_equal (fun x => rev (chars x))) in E.
  rewrite !chars_append, !rev_app_distr in E. simpl in E.
  rewrite <- (str_chars s). rewrite <- (rev_involutive (chars s)).
  rewrite forallb_forall in Hdig.
  assert (Hrev : forall c, In c (rev (chars s)) -> digit_or_minus c = true)
    by (intros c Hc; apply Hdig; now apply in_rev).
  destruct (rev (chars s)) as [|c1 [|c2 rest]] eqn:Er.
  - exfalso. apply Hne. rewrite <- (str_chars s).
    rewrite <- (rev_involutive (chars s)), Er. reflexivity.
  - simpl in E. injection E as -> _. reflexivity.
  - simpl in E. injection E as _ -> _.
    specialize (Hrev "e"%char (or_intror (or_introl eq_refl))).
    discriminate Hrev.
Qed.

Lemma is_node0_patient_node_id (x : snv_node_row * Z) :
  is_node0 (patient_node_id x) = true <-> node (fst x) = 0%Z.
Proof.
  unfold patient_node_id. split.
  - intros H. apply str_int_zero.
    destruct (str_int_chars (node (fst x))) as [Hdig Hne].
    exact (rev_chars_node0 _ _ Hdig Hne H).
  - intros ->. apply is_node0_iff.
    exists (node_patient_id (fst x) ++ "_")%string.
    now rewrite string_append_assoc.
Qed.

(** A node identifier [patient_id + '_Node' + str(node)] ends in [Node0]
    exactly when the node number is 0: the ancestral class of the rank test
    is the nodes numbered 0, and node 10 or 20 is not in it. *)
Theorem patient_node_id_node0 (x : snv_node_row * Z) :
  is_node0 (patient_node_id x) = true <-> node (fst x) = 0%Z.
Proof. apply is_node0_patient_node_id. Qed.

(** ** The context index of a node variant *)

Lemma site_eqb_eq (a b : site) : site_eqb a b = true <-> a = b.
Proof.
  destruct a as [[[[c1 p1] r1] a1] i1], b as [[[[c2 p2] r2] a2] i2].
  unfold site_eqb.
  rewrite !andb_true_iff, !String.eqb_eq, !Z.eqb_eq.
  split; [intros [[[[-> ->] ->] ->] ->]; reflexivity|].
  intros [= -> -> -> -> ->]. auto.
Qed.

Lemma drop_duplicates_from_spec {A : Type} (eqb : A -> A -> bool)
      (seen rows : list A) :
  (forall a b, eqb a b = true <-> a = b) ->
  (forall x, In x (drop_duplicates_from eqb seen rows) <->
             In x rows /\ ~ In x seen) /\
  NoDup (drop_duplicates_from eqb seen rows).
Proof.
  intros Heq. revert seen. induction rows as [|r rows IH]; intros seen; simpl.
  - split; [intros x; tauto|constructor].
  - destruct (existsb (eqb r) seen) eqn:E.
    + apply existsb_exists in E as (y & Hy & Ery). apply Heq in Ery. subst y.
      destruct (IH seen) as [Hin Hnd]. split; [|exact Hnd].
      intros x. rewrite Hin. split; [tauto|].
      intros [[->|H] Hs]; [contradiction|tauto].
    + assert (Hr : ~ In r seen).
      { intros Hr. apply not_true_iff_false in E. apply E.
        apply existsb_exists. exists r. split; [exact Hr|]. now apply Heq. }
      destruct (IH (r :: seen)) as [Hin Hnd]. split.
      * intros x. simpl. rewrite Hin. simpl. split.
        -- intros [->|[H Hs]]; [tauto|]. split; [tauto|]. tauto.
        -- intros [[->|H] Hs]; [now left|].
           destruct (eqb r x) eqn:Erx.
           ++ left. now apply Heq.
           ++ right. split; [exact H|]. intros [Hrx|Hx]; [|contradiction].
              apply Heq in Hrx. congruence.
      * constructor; [|exact Hnd]. rewrite Hin. simpl. tauto.
Qed.

Lemma in_cohort_tri_nuc (snvs_table : list (snv_row * Z)) (s : site) :
  In s (cohort_tri_nuc snvs_table) <->
  exists x, In x snvs_table /\
            s = (snv_chrom (fst x), snv_coord (fst x), snv_ref (fst x),
                 snv_alt (fst x), snd x).
Proof.
  unfold cohort_tri_nuc, drop_duplicates.
  destruct (drop_duplicates_from_spec site_eqb []
              (map (fun x => (snv_chrom (fst x), snv_coord (fst x),
                              snv_ref (fst x), snv_alt (fst x), snd x))
                   snvs_table) site_eqb_eq) as [Hin _].
  rewrite Hin, in_map_iff. simpl. split.
  - intros [(x & <- & Hx) _]. eauto.
  - intros (x & Hx & ->). split; [eauto|tauto].
Qed.

(** The node table after the join: a node variant is kept with index [i]
    exactly when the SNV table has, at the same chromosome, coordinate, ref
    and alt, a row with index [i]; and when every such site has one index in
    the SNV table, a node variant is kept at most once however many samples
    carry it, so the joined table has no more rows than the node table. *)
Theorem merge_sites_cohort_tri_nuc
        (snv_nodes_table : list snv_node_row) (snvs_table : list (snv_row * Z)) :
  let same_site (r : snv_node_row) (x : snv_row * Z) :=
    node_chrom r = snv_chrom (fst x) /\ node_coord r = snv_coord (fst x) /\
    node_ref r = snv_ref (fst x) /\ node_alt r = snv_alt (fst x) in
  let joined := merge_sites snv_nodes_table (cohort_tri_nuc snvs_table) in
  (forall r i, In (r, i) joined <->
               In r snv_nodes_table /\
               exists x, In x snvs_table /\ same_site r x /\ snd x = i) /\
  ((forall x y, In x snvs_table -> In y snvs_table ->
                snv_chrom (fst x) = snv_chrom (fst y) ->
                snv_coord (fst x) = snv_coord (fst y) ->
                snv_ref (fst x) = snv_ref (fst y) ->
                snv_alt (fst x) = snv_alt (fst y) -> snd x = snd y) ->
   (List.length joined <= List.length snv_nodes_table)%nat).
Proof.
  cbv zeta. split.
  - intros r i. unfold merge_sites. rewrite in_flat_map. split.
    + intros (r' & Hr' & Hin). apply in_map_iff in Hin as (s & [= <- <-] & Hs).
      apply filter_In in Hs as [Hs Hm]. split; [exact Hr'|].
      apply in_cohort_tri_nuc in Hs as (x & Hx & ->). exists x.
      unfold matches_site in Hm.
      rewrite !andb_true_iff, !String.eqb_eq, Z.eqb_eq in Hm. tauto.
    + intros (Hr & x & Hx & (H1 & H2 & H3 & H4) & <-). exists r.
      split; [exact Hr|]. apply in_map_iff.
      exists (snv_chrom (fst x), snv_coord (fst x), snv_ref (fst x),
              snv_alt (fst x), snd x).
      split; [reflexivity|]. apply filter_In. split.
      * apply in_cohort_tri_nuc. eauto.
      * unfold matches_site.
        rewrite !andb_true_iff, !String.eqb_eq, Z.eqb_eq. tauto.
  - intros Hfun. unfold merge_sites. apply flat_map_length_le. intros r.
    rewrite length_map. apply NoDup_all_equal.
    + apply NoDup_filter. unfold cohort_tri_nuc, drop_duplicates.
      apply drop_duplicates_from_spec, site_eqb_eq.
    + intros a b Ha Hb. apply filter_In in Ha as [Ha Hma], Hb as [Hb Hmb].
      apply in_cohort_tri_nuc in Ha as (x & Hx & ->).
      apply in_cohort_tri_nuc in Hb as (y & Hy & ->).
      unfold matches_site in Hma, Hmb.
      rewrite !andb_true_iff, !String.eqb_eq, Z.eqb_eq in Hma, Hmb.
      destruct Hma as [[[A1 A2] A3] A4], Hmb as [[[B1 B2] B3] B4].
      rewrite (Hfun x y Hx Hy) by congruence. congruence.
Qed.

Lemma merge_sites_cohort_tri_nuc_witness :
  (List.length (merge_sites node_table
                  (cohort_tri_nuc
                     [(mkSnv "1" 100 "C" "A" (Some "ACA") 7 "P1" "S1", 0%Z);
                      (mkSnv "1" 100 "C" "A" (Some "ACA") 3 "P1" "S2", 0%Z);
                      (mkSnv "2" 250 "A" "C" (Some "CAG") 5 "P1" "S1", 1%Z)]))
   <= 3)%nat.
Proof.
  apply (merge_sites_cohort_tri_nuc node_table
           [(mkSnv "1" 100 "C" "A" (Some "ACA") 7 "P1" "S1", 0%Z);
            (mkSnv "1" 100 "C" "A" (Some "ACA") 3 "P1" "S2", 0%Z);
            (mkSnv "2" 250 "A" "C" (Some "CAG") 5 "P1" "S1", 1%Z)]).
  intros x y [<-|[<-|[<-|[]]]] [<-|[<-|[<-|[]]]]; simpl;
    intros; try reflexivity; discriminate.
Defined.

Lemma test_ancestral_descendant_key_error_witness :
  test_ancestral_descendant toy_mannwhitneyu [] = inl (KeyError "True") /\
  test_ancestral_descendant toy_mannwhitneyu [("P1_Node0", 0.5%float)]
  = inl (KeyError "False").
Proof.
  split.
  - apply (test_ancestral_descendant_key_error toy_mannwhitneyu []).
    intros e [].
  - apply (test_ancestral_descendant_key_error toy_mannwhitneyu
             [("P1_Node0", 0.5%float)]).
    + eexists. left. reflexivity.
    + intros e [<-|[]]. apply is_node0_iff. reflexivity.
Defined.

(** ** The node table through the fit and the box plots *)

(** When the node table is fitted on [patient_node_id] with a basis of at
    least one signature, some node has more than 100 variants and no node
    above the cutoff is numbered 0, the box plots of the fitted table raise
    [KeyError]: there is no ancestral class to compare with. *)
Theorem node_boxplots_without_root
        (transform : lda_transform) (mannwhitneyu : mannwhitneyu_t)
        (snv_nodes_table : list (snv_node_row * Z))
        (sig_prob : DataFrame Z string float)
        (pvalue_threshold : option float)
        (node_sig : DataFrame string string float) (k : string) :
  fit_sample_signatures snd transform snv_nodes_table sig_prob patient_node_id
  = inr node_sig ->
  columns sig_prob <> [] ->
  (100 < group_count patient_node_id snv_nodes_table k)%nat ->
  (forall x, In x snv_nodes_table ->
     (100 < group_count patient_node_id snv_nodes_table (patient_node_id x))%nat ->
     node (fst x) <> 0%Z) ->
  exists key,
    plot_signature_boxplots mannwhitneyu node_sig pvalue_threshold
    = inl (KeyError key).
Proof.
  intros Hfit Hcols Hk Hnodes.
  destruct (fit_sample_signatures_inr _ _ _ _ _ _ Hfit) as (Hidx & _ & Hfull).
  pose proof (tri_nuc_table_nonempty snd snv_nodes_table patient_node_id k Hk)
    as Hne.
  destruct (Hfull Hne) as (Hc & _).
  apply plot_signature_boxplots_raises.
  - now rewrite Hidx.
  - rewrite Hc. destruct (columns sig_prob); [now destruct Hcols|discriminate].
  - left. intros l Hl Hend. rewrite Hidx in Hl.
    apply (tri_nuc_table_index snd patient_node_id) in Hl.
    assert (exists x, In x snv_nodes_table /\ patient_node_id x = l)
      as (x & Hx & <-) by (apply group_count_pos; lia).
    apply (Hnodes x Hx Hl). apply is_node0_patient_node_id.
    now apply is_node0_iff.
Qed.

Lemma node_boxplots_without_root_witness :
  exists node_sig key,
    fit_sample_signatures snd uniform_transform descendant_nodes basis2
                          patient_node_id = inr node_sig /\
    plot_signature_boxplots toy_mannwhitneyu node_sig None = inl (KeyError key).
Proof.
  eexists.
  assert (Hfit : fit_sample_signatures snd uniform_transform descendant_nodes
                   basis2 patient_node_id
                 = inr (mkDataFrame ["P1_Node1"] ["1"; "2"]
                                    [[0.5%float; 0.5%float]]))
    by (vm_compute; reflexivity).
  destruct (node_boxplots_without_root uniform_transform toy_mannwhitneyu
              descendant_nodes basis2 None _ "P1_Node1" Hfit) as (key & Hkey).
  - discriminate.
  - vm_compute. lia.
  - intros x Hx Hbig Hzero. unfold descendant_nodes in Hx.
    apply in_app_or in Hx as [Hx|Hx]; apply repeat_spec in Hx; subst x.
    + discriminate.
    + vm_compute in Hbig. lia.
  - exists key. split; [exact Hfit|exact Hkey].
Defined.

(** ** The order of the rows of the input does not matter *)

Lemma sorted_ext {A : Type} (lt : A -> A -> Prop) (l1 l2 : list A) :
  (forall a b, lt a b -> lt b a -> False) ->
  StronglySorted lt l1 -> StronglySorted lt l2 ->
  (forall x, In x l1 <-> In x l2) -> l1 = l2.
Proof.
  intros Hasym H1. revert l2.
  induction H1 as [|x l1 Hs1 IH Hall1]; intros l2 H2 Hmem.
  - destruct l2 as [|y l2]; [reflexivity|].
    destruct (proj2 (Hmem y)); simpl; auto.
  - destruct H2 as [|y l2 Hs2 Hall2].
    + destruct (proj1 (Hmem x)); simpl; auto.
    + rewrite Forall_forall in Hall1, Hall2.
      assert (Hxy : x = y).
      { destruct (proj1 (Hmem x) (or_introl eq_refl)) as [E|Hx]; [now symmetry|].
        destruct (proj2 (Hmem y) (or_introl eq_refl)) as [E|Hy]; [exact E|].
        destruct (Hasym x y); auto. }
      subst y. f_equal. apply IH; [exact Hs2|].
      intros z. split; intros Hz.
      * destruct (proj1 (Hmem z) (or_intror Hz)) as [<-|H]; [|exact H].
        destruct (Hasym x x); auto.
      * destruct (proj2 (Hmem z) (or_intror Hz)) as [<-|H]; [|exact H].
        destruct (Hasym x x); auto.
Qed.

Lemma string_ltb_asym (a b : string) :
  String.ltb a b = true -> String.ltb b a = true -> False.
Proof.
  rewrite !string_ltb_iff. intros [H1 Hne] [H2 _].
  apply Hne. now apply String.leb_antisym.
Qed.

Lemma unique_sorted_strings_ext (ks1 ks2 : list string) :
  (forall x, In x ks1 <-> In x ks2) ->
  unique_sorted String.leb String.eqb ks1 = unique_sorted String.leb String.eqb ks2.
Proof.
  intros Hmem.
  apply (sorted_ext (fun a b => String.leb a b = true /\ a <> b)).
  - intros a b [H1 Hne] [H2 _]. apply Hne. now apply String.leb_antisym.
  - apply (unique_sorted_sorted _ _ String.eqb_eq String.leb_total
             string_leb_trans String.leb_antisym).
  - apply (unique_sorted_sorted _ _ String.eqb_eq String.leb_total
             string_leb_trans String.leb_antisym).
  - intros x. now rewrite !(in_unique_sorted _ _ String.eqb_eq).
Qed.

Lemma Permutation_filter' {A : Type} (p : A -> bool) (l l' : list A) :
  Permutation l l' -> Permutation (filter p l) (filter p l').
Proof.
  induction 1 as [|x l l' _ IH|x y l|l l' l'' _ IH1 _ IH2]; simpl.
  - constructor.
  - destruct (p x); [now constructor|exact IH].
  - destruct (p x), (p y); try reflexivity. apply perm_swap.
  - now transitivity (filter p l').
Qed.

Lemma tri_nuc_table_columns_sorted {Row : Type} (tri_nuc_idx_col : Row -> Z)
      (snvs_table : list Row) (subset_col : Row -> string) :
  StronglySorted Z.lt
    (columns (tri_nuc_table tri_nuc_idx_col snvs_table subset_col)).
Proof.
  unfold tri_nuc_table, astype_int, fillna, unstack. simpl.
  eapply StronglySorted_weaken;
    [|apply (unique_sorted_sorted _ _ Z.eqb_eq Z_leb_total Z_leb_trans
               Z_leb_antisym)].
  intros a b [Hle Hne]. apply Z.leb_le in Hle. lia.
Qed.

Lemma DataFrame_ext {I C V : Type} (a b : DataFrame I C V) :
  index a = index b -> columns a = columns b -> values a = values b -> a = b.
Proof. destruct a, b. simpl. now intros -> -> ->. Qed.

Section RowOrder.
Context {Row : Type} (tri_nuc_idx_col : Row -> Z).
Variable subset_col : Row -> string.
Variables t1 t2 : list Row.
Hypothesis Hperm : Permutation t1 t2.

Lemma snv_counts_permutation :
  snv_counts t1 subset_col = snv_counts t2 subset_col.
Proof.
  unfold snv_counts, size, groupby. rewrite !map_map. simpl.
  rewrite (unique_sorted_strings_ext (map subset_col t1) (map subset_col t2)).
  - apply map_ext. intros k. f_equal.
    apply Permutation_length, Permutation_filter', Hperm.
  - intros x. split; apply Permutation_in;
      [|symmetry]; apply Permutation_map, Hperm.
Qed.

Lemma filter_samples_permutation :
  Permutation (filter_samples t1 subset_col) (filter_samples t2 subset_col).
Proof.
  unfold filter_samples. rewrite snv_counts_permutation.
  generalize (map fst (filter (fun kv => (100 <? snd kv)%nat)
                              (snv_counts t2 subset_col))).
  intros labels. unfold loc_rows.
  induction labels as [|l labels IH]; simpl; [constructor|].
  apply Permutation_app; [|exact IH]. apply Permutation_filter', Hperm.
Qed.

Lemma tri_nuc_table_permutation :
  tri_nuc_table tri_nuc_idx_col t1 subset_col
  = tri_nuc_table tri_nuc_idx_col t2 subset_col.
Proof.
  assert (Hidx : index (tri_nuc_table tri_nuc_idx_col t1 subset_col)
                 = index (tri_nuc_table tri_nuc_idx_col t2 subset_col)).
  { apply (sorted_ext (fun a b => String.ltb a b = true)).
    - apply string_ltb_asym.
    - apply tri_nuc_table_index_sorted.
    - apply tri_nuc_table_index_sorted.
    - intros k. rewrite !tri_nuc_table_index. unfold group_count.
      now rewrite (proj1 (Permutation_count_occ string_dec _ _)
                     (Permutation_map subset_col Hperm) k). }
  assert (Hcol : columns (tri_nuc_table tri_nuc_idx_col t1 subset_col)
                 = columns (tri_nuc_table tri_nuc_idx_col t2 subset_col)).
  { apply (sorted_ext Z.lt).
    - intros a b. lia.
    - apply tri_nuc_table_columns_sorted.
    - apply tri_nuc_table_columns_sorted.
    - intros c. rewrite !tri_nuc_table_columns.
      split; intros (r & Hr & E); exists r; split; auto;
        revert Hr; apply Permutation_in;
        [|symmetry]; apply filter_samples_permutation. }
  apply DataFrame_ext; [exact Hidx|exact Hcol|].
  rewrite !tri_nuc_table_values. cbv zeta. rewrite Hidx, Hcol.
  apply map_ext. intros k. apply map_ext. intros c. f_equal.
  apply Permutation_length, Permutation_filter', filter_samples_permutation.
Qed.
End RowOrder.

(** Listing the rows of the variant table in another order changes neither
    the count matrix nor what [fit_sample_signatures] returns. *)
Theorem fit_sample_signatures_row_order
        {Row : Type} (tri_nuc_idx_col : Row -> Z) (transform : lda_transform)
        (t1 t2 : list Row) (sig_prob : DataFrame Z string float)
        (subset_col : Row -> string) :
  Permutation t1 t2 ->
  tri_nuc_table tri_nuc_idx_col t1 subset_col
  = tri_nuc_table tri_nuc_idx_col t2 subset_col /\
  fit_sample_signatures tri_nuc_idx_col transform t1 sig_prob subset_col
  = fit_sample_signatures tri_nuc_idx_col transform t2 sig_prob subset_col.
Proof.
  intros Hperm.
  pose proof (tri_nuc_table_permutation tri_nuc_idx_col subset_col t1 t2 Hperm)
    as E.
  split; [exact E|]. unfold fit_sample_signatures. now rewrite E.
Qed.

Lemma fit_sample_signatures_row_order_witness :
  tri_nuc_table snd three_sample_table fst
  = tri_nuc_table snd (rev three_sample_table) fst.
Proof.
  apply (fit_sample_signatures_row_order snd uniform_transform
           three_sample_table (rev three_sample_table) basis2 fst).
  apply Permutation_rev.
Defined.

(** ** fit_sample_signatures: the rows of the exposure table *)

Lemma first_topic_row_sum (m : nat) :
  fold_left add (repeat 0%float m) 1%float = 1%float.
Proof. induction m as [|m IH]; simpl; [reflexivity|exact IH]. Qed.

Lemma first_topic_transform_simplex :
  transform_simplex sum_tolerance first_topic_transform.
Proof.
  intros model X it Hpos _. eexists. split; [reflexivity|].
  split; [apply length_map|].
  apply Forall_forall. intros row Hrow.
  apply in_map_iff in Hrow as (doc & <- & _).
  destruct (n_topics model) as [|m]; [lia|]. split.
  - simpl. now rewrite repeat_length.
  - unfold simplex, row_sum. apply andb_true_iff. split.
    + simpl. apply forallb_forall. intros w Hw.
      apply repeat_spec in Hw. now subst w.
    + simpl. change (0 + 1)%float with 1%float.
      rewrite first_topic_row_sum. reflexivity.
Qed.

Section Exposures.
Context {Row : Type} (tri_nuc_idx_col : Row -> Z).
Variable subset_col : Row -> string.
Variable snvs_table : list Row.

Let counts : DataFrame string Z Z :=
  tri_nuc_table tri_nuc_idx_col snvs_table subset_col.

(** No row of the count matrix is empty. *)
Lemma tri_nuc_table_rows_positive :
  Forall (fun doc => (0 < row_total doc)%Z) (values counts).
Proof.
  apply Forall_forall. intros doc Hdoc.
  destruct (In_nth_error _ _ Hdoc) as (i & Hi).
  assert (Hlt : (i < List.length (index counts))%nat).
  { pose proof (tri_nuc_table_shape tri_nuc_idx_col subset_col snvs_table)
      as Hshape.
    fold counts in Hshape. rewrite <- Hshape.
    apply nth_error_Some. rewrite Hi. discriminate. }
  destruct (nth_error (index counts) i) as [k|] eqn:Hk;
    [|apply nth_error_None in Hk; lia].
  destruct (tri_nuc_table_row_total_at tri_nuc_idx_col snvs_table subset_col
              i k doc Hk Hi) as (_ & Hbig & _).
  lia.
Qed.
End Exposures.

(** C1: with an inference engine that keeps its contract (non-negative
    weights that sum to 1 within the tolerance, one row per group) and a
    basis of at least one signature, [fit_sample_signatures] returns a table
    in which every group with more than 100 variants has a row, that row has
    one weight per signature, none negative, and sums to 1 within the
    tolerance; the table has no other kind of row. *)
Theorem fit_sample_signatures_simplex
        {Row : Type} (tri_nuc_idx_col : Row -> Z) (transform : lda_transform)
        (snvs_table : list Row) (sig_prob : DataFrame Z string float)
        (subset_col : Row -> string) (tol : float) (k : string) :
  transform_simplex tol transform ->
  columns sig_prob <> [] ->
  (100 < group_count subset_col snvs_table k)%nat ->
  exists sample_sig i row,
    fit_sample_signatures tri_nuc_idx_col transform snvs_table sig_prob subset_col
    = inr sample_sig /\
    nth_error (index sample_sig) i = Some k /\
    nth_error (values sample_sig) i = Some row /\
    List.length row = List.length (columns sample_sig) /\
    simplex tol row = true /\
    Forall (fun r => simplex tol r = true) (values sample_sig).
Proof.
  intros Hcontract Hcols Hk.
  pose proof (tri_nuc_table_index tri_nuc_idx_col subset_col snvs_table k) as Hin.
  pose proof (tri_nuc_table_shape tri_nuc_idx_col subset_col snvs_table) as Hlen.
  pose proof (tri_nuc_table_rows_positive tri_nuc_idx_col subset_col snvs_table)
    as Hpos.
  pose proof (tri_nuc_table_nonempty tri_nuc_idx_col snvs_table subset_col k Hk)
    as Hne.
  cbv zeta in Hpos. unfold fit_sample_signatures.
  set (counts := tri_nuc_table tri_nuc_idx_col snvs_table subset_col) in *.
  destruct (List.length (index counts) =? 0)%nat eqn:E.
  { apply Nat.eqb_eq, length_zero_iff_nil in E. now destruct Hne. }
  match goal with |- context [transform ?m ?X ?it] =>
    destruct (Hcontract m X it) as (Y & -> & HY1 & HY2) end.
  { simpl. destruct (columns sig_prob); [now destruct Hcols|simpl; lia]. }
  { exact Hpos. }
  cbn [n_topics] in HY2. rewrite Forall_forall in HY2.
  unfold bind at 1. unfold frame_of_array.
  rewrite HY1, Hlen, Nat.eqb_refl.
  replace (forallb _ Y) with true.
  2:{ symmetry. apply forallb_forall. intros row Hrow.
      apply Nat.eqb_eq. now apply HY2. }
  cbn [andb bind ret].
  apply Hin in Hk. destruct (In_nth_error _ _ Hk) as (i & Hi).
  assert (Hlt : (i < List.length Y)%nat).
  { rewrite HY1, Hlen. apply nth_error_Some. congruence. }
  destruct (nth_error Y i) as [row|] eqn:Hrow;
    [|apply nth_error_None in Hrow; lia].
  destruct (HY2 row (nth_error_In _ _ Hrow)) as [Hrl Hrs].
  eexists. exists i, row. split; [reflexivity|].
  cbn [index columns values]. split; [exact Hi|]. split; [exact Hrow|].
  split; [now rewrite length_map|]. split; [exact Hrs|].
  apply Forall_forall. intros r Hr. now apply HY2.
Qed.

Lemma fit_sample_signatures_simplex_witness :
  transform_simplex sum_tolerance first_topic_transform /\
  exists sample_sig i row,
    fit_sample_signatures snd first_topic_transform three_sample_table basis2 fst
    = inr sample_sig /\
    nth_error (index sample_sig) i = Some "P2_S1" /\
    nth_error (values sample_sig) i = Some row /\
    simplex sum_tolerance row = true.
Proof.
  split; [exact first_topic_transform_simplex|].
  destruct (fit_sample_signatures_simplex snd first_topic_transform
              three_sample_table basis2 fst sum_tolerance "P2_S1"
              first_topic_transform_simplex)
    as (df & i & row & Hdf & Hi & Hrow & _ & Hs & _).
  - discriminate.
  - vm_compute. lia.
  - exists df, i, row. auto.
Defined.
